(** * Graph library of ch19_graph_algorithms: a shallow embedding

    The Python modules [lib/graph.py], [lib/traversal.py], [lib/tree.py] and
    [lib/topology.py] are embedded as Rocq functions.  Python dictionaries
    become [gmap]s, Python sets become [gset]s, Python lists stay lists, and
    raised exceptions become the [Raise] outcome of a small result monad.
    Loops whose trip count is not structural ([while queue:], recursion of the
    depth-first helpers) take a fuel argument; running out of fuel is the
    separate outcome [Diverge], and every theorem about a result shows that the
    fuel handed out by the top-level function is enough. *)

From Stdlib Require Import ZArith String.
From stdpp Require Import base gmap sets list strings relations.

Local Open Scope string_scope.
Local Open Scope list_scope.

(** ** Values *)

(** Vertex labels are the strings used throughout the example scripts. *)
Abbreviation Vertex := string (only parsing).

(** A cell of the adjacency matrix: [float('inf')] or a number. *)
Inductive cell : Type :=
  | Inf
  | Num (z : Z).

#[global] Instance cell_eq_dec : EqDecision cell.
Proof. solve_decision. Defined.

(** ** Outcomes of a call *)

(** The exceptions the library can raise.  The [ValueError]s are told apart
    by their message. *)
Inductive exn : Type :=
  | ValueError_vertex_not_in_graph (v : Vertex)
  | ValueError_not_in_list (v : Vertex)
  | ValueError_topological_directed_only
  | ValueError_cycle
  | ValueError_kruskal_undirected_only
  | ValueError_prim_undirected_only
  | KeyError (v : Vertex)
  | IndexError.

Inductive result (A : Type) : Type :=
  | Ok (a : A)
  | Raise (e : exn)
  | Diverge.
Arguments Ok {A} a.
Arguments Raise {A} e.
Arguments Diverge {A}.

Definition bind {A B : Type} (r : result A) (k : A → result B) : result B :=
  match r with
  | Ok a => k a
  | Raise e => Raise e
  | Diverge => Diverge
  end.

Notation "x ←? r ; k" := (bind r (fun x => k))
  (at level 20, r at level 100, k at level 200, right associativity,
   format "x  ←?  r ;  '/' k").
Notation "' p ←? r ; k" := (bind r (fun x => let 'p := x in k))
  (at level 20, p pattern, r at level 100, k at level 200,
   right associativity, format "' p  ←?  r ;  '/' k").

(** [for x in l: st = body x st], stopping at the first exception. *)
Fixpoint for_each {A S : Type} (body : A → S → result S) (l : list A) (st : S)
  : result S :=
  match l with
  | [] => Ok st
  | x :: l' => st' ←? body x st; for_each body l' st'
  end.

(** [d[k]] on a dictionary: [KeyError] when the key is absent. *)
Definition getitem {A : Type} (d : gmap Vertex A) (k : Vertex) : result A :=
  match d !! k with
  | Some a => Ok a
  | None => Raise (KeyError k)
  end.

(** ** graph.py *)

Record Graph : Type := mkGraph {
  vertices : list Vertex;
  vertex_count : nat;
  is_directed : bool;
  is_weighted : bool;
  adj_list : gmap Vertex (list (Vertex * Z));
  adj_matrix : list (list cell)
}.

(** [self.adj_matrix[i][i] = 0] *)
Definition set_diagonal (m : list (list cell)) (i : nat) : list (list cell) :=
  match m !! i with
  | Some row => <[i := <[i := Num 0]> row]> m
  | None => m
  end.

(** [_build_matrix], for [n = self.vertex_count]: [n] rows of [n] times
    [inf] with the diagonal then set to 0 when the graph is weighted, [n] rows
    of [n] zeros otherwise. *)
Definition _build_matrix (weighted : bool) (n : nat) : list (list cell) :=
  if weighted
  then foldl set_diagonal (replicate n (replicate n Inf)) (seq 0 n)
  else replicate n (replicate n (Num 0)).

(** [Graph(vertices, is_directed, is_weighted)]; [None] and the empty list
    both give the empty vertex list. *)
Definition Graph_init (vs : option (list Vertex)) (directed weighted : bool)
  : Graph :=
  let vl := default [] vs in
  {| vertices := vl;
     vertex_count := length vl;
     is_directed := directed;
     is_weighted := weighted;
     adj_list := list_to_map ((fun v => (v, [])) <$> vl);
     adj_matrix := _build_matrix weighted (length vl) |}.

Definition add_vertex (v : Vertex) (g : Graph) : Graph :=
  if decide (v ∈ vertices g) then g
  else
    {| vertices := vertices g ++ [v];
       vertex_count := S (vertex_count g);
       is_directed := is_directed g;
       is_weighted := is_weighted g;
       adj_list := <[v := []]> (adj_list g);
       adj_matrix := _build_matrix (is_weighted g) (S (vertex_count g)) |}.

(** [l.index(v)]: position of the first occurrence, [ValueError] if none. *)
Fixpoint index (v : Vertex) (l : list Vertex) : option nat :=
  match l with
  | [] => None
  | x :: l' => if decide (x = v) then Some 0%nat else S <$> index v l'
  end.

Definition list_index (v : Vertex) (l : list Vertex) : result nat :=
  match index v l with
  | Some i => Ok i
  | None => Raise (ValueError_not_in_list v)
  end.

(** [m[i][j] = c]: [IndexError] when a position is out of range. *)
Definition set_cell (m : list (list cell)) (i j : nat) (c : cell)
  : result (list (list cell)) :=
  match m !! i with
  | Some row =>
      if decide (j < length row)%nat then Ok (<[i := <[j := c]> row]> m)
      else Raise IndexError
  | None => Raise IndexError
  end.

(** [d[k].append(x)] *)
Definition append_entry (d : gmap Vertex (list (Vertex * Z))) (k : Vertex)
    (x : Vertex * Z) : result (gmap Vertex (list (Vertex * Z))) :=
  l ←? getitem d k; Ok (<[k := l ++ [x]]> d).

(** What [add_edge] writes into a matrix cell: the weight, or 1 when the
    graph is unweighted. *)
Definition edge_cell (weighted : bool) (weight : Z) : cell :=
  if weighted then Num weight else Num 1.

Definition add_edge (source destination : Vertex) (weight : Z) (g : Graph)
  : result Graph :=
  let g := if decide (source ∈ vertices g) then g else add_vertex source g in
  let g := if decide (destination ∈ vertices g) then g
           else add_vertex destination g in
  al ←? append_entry (adj_list g) source (destination, weight);
  al ←? (if is_directed g then Ok al
         else append_entry al destination (source, weight));
  src_idx ←? list_index source (vertices g);
  dst_idx ←? list_index destination (vertices g);
  let c := edge_cell (is_weighted g) weight in
  m ←? set_cell (adj_matrix g) src_idx dst_idx c;
  m ←? (if is_directed g then Ok m else set_cell m dst_idx src_idx c);
  Ok {| vertices := vertices g;
        vertex_count := vertex_count g;
        is_directed := is_directed g;
        is_weighted := is_weighted g;
        adj_list := al;
        adj_matrix := m |}.

Definition get_neighbors (g : Graph) (v : Vertex)
  : result (list (Vertex * Z)) :=
  match adj_list g !! v with
  | Some l => Ok l
  | None => Raise (ValueError_vertex_not_in_graph v)
  end.

(** The scan of [get_edge_weight]: the weight of the first matching entry. *)
Fixpoint first_weight (destination : Vertex) (l : list (Vertex * Z))
  : option Z :=
  match l with
  | [] => None
  | (neighbor, weight) :: l' =>
      if decide (neighbor = destination) then Some weight
      else first_weight destination l'
  end.

Definition get_edge_weight (g : Graph) (source destination : Vertex)
  : result (option Z) :=
  l ←? getitem (adj_list g) source; Ok (first_weight destination l).

(** ** Building a graph: the constructor, then calls of the two mutators *)

Inductive op : Type :=
  | AddVertex (v : Vertex)
  | AddEdge (source destination : Vertex) (weight : Z).

Definition run_op (o : op) (g : Graph) : result Graph :=
  match o with
  | AddVertex v => Ok (add_vertex v g)
  | AddEdge s d w => add_edge s d w g
  end.

Definition run_ops (ops : list op) (g : Graph) : result Graph :=
  for_each run_op ops g.

(** [built g]: [g] is the state after a constructor call followed by a
    finite sequence of [add_vertex]/[add_edge] calls. *)
Definition built_from (vs : option (list Vertex)) (directed weighted : bool)
    (ops : list op) (g : Graph) : Prop :=
  run_ops ops (Graph_init vs directed weighted) = Ok g.

Definition built (g : Graph) : Prop :=
  ∃ vs directed weighted ops, built_from vs directed weighted ops g.

(** ** traversal.py *)

(** A [for] loop whose body may [return]: the body answers [inl r] to return
    [r] from the enclosing function and [inr st] to go on with state [st]. *)
Fixpoint for_return {A S R : Type} (body : A → S → result (R + S))
    (l : list A) (st : S) : result (R + S) :=
  match l with
  | [] => Ok (inr st)
  | x :: l' =>
      r ←? body x st;
      match r with
      | inl v => Ok (inl v)
      | inr st' => for_return body l' st'
      end
  end.

Module BFS.

(** The body of [for neighbor, _ in neighbors] in [shortest_path]. *)
Definition enqueue_path (path : list Vertex)
    (st : gset Vertex * list (Vertex * list Vertex)) (entry : Vertex * Z)
  : gset Vertex * list (Vertex * list Vertex) :=
  let '(visited, queue) := st in
  let '(neighbor, _) := entry in
  if decide (neighbor ∈ visited) then st
  else ({[neighbor]} ∪ visited, queue ++ [(neighbor, path ++ [neighbor])]).

(** [while queue:] of [shortest_path]. *)
Fixpoint shortest_path_loop (fuel : nat) (g : Graph) (end_ : Vertex)
    (visited : gset Vertex) (queue : list (Vertex * list Vertex))
  : result (option (list Vertex)) :=
  match fuel with
  | O => Diverge
  | S fuel' =>
      match queue with
      | [] => Ok None
      | (vertex, path) :: queue' =>
          if decide (vertex = end_) then Ok (Some path)
          else
            neighbors ←? get_neighbors g vertex;
            let '(visited', queue'') :=
              foldl (enqueue_path path) (visited, queue') neighbors in
            shortest_path_loop fuel' g end_ visited' queue''
      end
  end.

Definition shortest_path (g : Graph) (start end_ : Vertex)
  : result (option (list Vertex)) :=
  if decide (start ∉ vertices g ∨ end_ ∉ vertices g) then Ok None
  else
    shortest_path_loop (S (length (vertices g))) g end_
      {[start]} [(start, [start])].

(** The body of [for neighbor, _ in neighbors] in [traverse] and in
    [connected_components]. *)
Definition enqueue (st : gset Vertex * list Vertex) (entry : Vertex * Z)
  : gset Vertex * list Vertex :=
  let '(visited, queue) := st in
  let '(neighbor, _) := entry in
  if decide (neighbor ∈ visited) then st
  else ({[neighbor]} ∪ visited, queue ++ [neighbor]).

(** [while queue:] of [traverse] and of [connected_components]; [out] is
    the list being filled ([result], resp. [component]). *)
Fixpoint drain (fuel : nat) (g : Graph) (visited : gset Vertex)
    (queue : list Vertex) (out : list Vertex)
  : result (gset Vertex * list Vertex) :=
  match fuel with
  | O => Diverge
  | S fuel' =>
      match queue with
      | [] => Ok (visited, out)
      | v :: queue' =>
          let out := out ++ [v] in
          neighbors ←? get_neighbors g v;
          let '(visited', queue'') :=
            foldl enqueue (visited, queue') neighbors in
          drain fuel' g visited' queue'' out
      end
  end.

Definition traverse (g : Graph) (start_vertex : Vertex)
  : result (list Vertex) :=
  '(_, out) ←? drain (S (S (length (vertices g)))) g
                 {[start_vertex]} [start_vertex] [];
  Ok out.

Definition connected_components (g : Graph) : result (list (list Vertex)) :=
  '(_, components) ←?
    for_each
      (fun vertex '(visited, components) =>
         if decide (vertex ∈ visited) then Ok (visited, components)
         else
           '(visited', component) ←?
             drain (S (length (vertices g))) g
               ({[vertex]} ∪ visited) [vertex] [];
           Ok (visited', components ++ [component]))
      (vertices g) (∅, []);
  Ok components.

End BFS.

Module DFS.

(** [rec_stack.remove(vertex)]: [KeyError] when the vertex is not there. *)
Definition set_remove (v : Vertex) (s : gset Vertex) : result (gset Vertex) :=
  if decide (v ∈ s) then Ok (s ∖ {[v]}) else Raise (KeyError v).

(** The body of [for neighbor, _ in neighbors] in [has_cycle_util]; the
    state is [(visited, rec_stack)], [util] is the recursive call, and
    [inl (true, _)] stands for [return True]. *)
Definition util_body
    (util : Vertex → gset Vertex * gset Vertex
            → result (bool * (gset Vertex * gset Vertex)))
    (entry : Vertex * Z) (st : gset Vertex * gset Vertex)
  : result (bool * (gset Vertex * gset Vertex) + gset Vertex * gset Vertex) :=
  let neighbor := entry.1 in
  if decide (neighbor ∉ st.1) then
    '(b, st') ←? util neighbor st;
    Ok (if b : bool then inl (true, st') else inr st')
  else if decide (neighbor ∈ st.2) then Ok (inl (true, st))
  else Ok (inr st).

Fixpoint has_cycle_util (fuel : nat) (g : Graph) (vertex : Vertex)
    (st : gset Vertex * gset Vertex)
  : result (bool * (gset Vertex * gset Vertex)) :=
  match fuel with
  | O => Diverge
  | S fuel' =>
      let st := ({[vertex]} ∪ st.1, {[vertex]} ∪ st.2) in
      neighbors ←? get_neighbors g vertex;
      r ←? for_return (util_body (has_cycle_util fuel' g)) neighbors st;
      match r with
      | inl ret => Ok ret
      | inr st =>
          rec_stack ←? set_remove vertex st.2;
          Ok (false, (st.1, rec_stack))
      end
  end.

(** The body of [for vertex in graph.vertices] in [has_cycle]. *)
Definition root_body (g : Graph) (vertex : Vertex)
    (st : gset Vertex * gset Vertex)
  : result (bool + gset Vertex * gset Vertex) :=
  if decide (vertex ∉ st.1) then
    '(b, st') ←? has_cycle_util (length (vertices g)) g vertex st;
    Ok (if b : bool then inl true else inr st')
  else Ok (inr st).

Definition has_cycle (g : Graph) : result bool :=
  r ←? for_return (root_body g) (vertices g) (∅, ∅);
  match r with
  | inl b => Ok b
  | inr _ => Ok false
  end.

End DFS.

(** ** topology.py *)

Module TopologicalSort.

(** The state of [dfs_based]: [visited], [rec_stack] and [stack]. *)
Record dfs_state : Type := DfsState {
  visited : gset Vertex;
  rec_stack : gset Vertex;
  stack : list Vertex
}.

(** The body of [for neighbor, _ in neighbors] in [dfs_visit]; [visit] is
    the recursive call. *)
Definition visit_body (visit : Vertex → dfs_state → result dfs_state)
    (entry : Vertex * Z) (st : dfs_state) : result dfs_state :=
  let neighbor := entry.1 in
  if decide (neighbor ∉ visited st) then visit neighbor st
  else if decide (neighbor ∈ rec_stack st) then Raise ValueError_cycle
  else Ok st.

Fixpoint dfs_visit (fuel : nat) (g : Graph) (vertex : Vertex)
    (st : dfs_state) : result dfs_state :=
  match fuel with
  | O => Diverge
  | S fuel' =>
      let st := DfsState ({[vertex]} ∪ visited st)
                         ({[vertex]} ∪ rec_stack st) (stack st) in
      neighbors ←? get_neighbors g vertex;
      st ←? for_each (visit_body (dfs_visit fuel' g)) neighbors st;
      rs ←? DFS.set_remove vertex (rec_stack st);
      Ok (DfsState (visited st) rs (stack st ++ [vertex]))
  end.

(** The body of [for vertex in graph.vertices] in [dfs_based]. *)
Definition visit_root (g : Graph) (vertex : Vertex) (st : dfs_state)
  : result dfs_state :=
  if decide (vertex ∉ visited st) then
    dfs_visit (length (vertices g)) g vertex st
  else Ok st.

Definition dfs_based (g : Graph) : result (list Vertex) :=
  if negb (is_directed g) then Raise ValueError_topological_directed_only
  else
    st ←? for_each (visit_root g) (vertices g) (DfsState ∅ ∅ []);
    Ok (reverse (stack st)).

(** [in_degree[neighbor] += delta] *)
Definition bump (delta : Z) (in_degree : gmap Vertex Z) (neighbor : Vertex)
  : result (gmap Vertex Z) :=
  d ←? getitem in_degree neighbor;
  Ok (<[neighbor := (d + delta)%Z]> in_degree).

(** The first loop of [kahn_algorithm]: count the incoming entries. *)
Definition count_in_degrees (g : Graph) : result (gmap Vertex Z) :=
  for_each
    (fun vertex in_degree =>
       neighbors ←? get_neighbors g vertex;
       for_each (fun (entry : Vertex * Z) in_degree =>
                   bump 1 in_degree entry.1)
                neighbors in_degree)
    (vertices g)
    (list_to_map ((fun v => (v, 0%Z)) <$> vertices g)).

(** [[v for v in graph.vertices if in_degree[v] == 0]] *)
Definition zero_in_degree (in_degree : gmap Vertex Z) (vs : list Vertex)
  : result (list Vertex) :=
  for_each
    (fun v queue =>
       d ←? getitem in_degree v;
       Ok (if decide (d = 0%Z) then queue ++ [v] else queue))
    vs [].

(** The body of [for neighbor, _ in neighbors] in the [while] loop. *)
Definition release (entry : Vertex * Z)
    (st : gmap Vertex Z * list Vertex)
  : result (gmap Vertex Z * list Vertex) :=
  let neighbor := entry.1 in
  in_degree ←? bump (-1) st.1 neighbor;
  d ←? getitem in_degree neighbor;
  Ok (in_degree, if decide (d = 0%Z) then st.2 ++ [neighbor] else st.2).

Fixpoint kahn_loop (fuel : nat) (g : Graph) (in_degree : gmap Vertex Z)
    (queue : list Vertex) (res : list Vertex) : result (list Vertex) :=
  match fuel with
  | O => Diverge
  | S fuel' =>
      match queue with
      | [] => Ok res
      | vertex :: queue' =>
          let res := res ++ [vertex] in
          neighbors ←? get_neighbors g vertex;
          '(in_degree', queue'') ←?
            for_each release neighbors (in_degree, queue');
          kahn_loop fuel' g in_degree' queue'' res
      end
  end.

Definition kahn_algorithm (g : Graph) : result (list Vertex) :=
  if negb (is_directed g) then Raise ValueError_topological_directed_only
  else
    in_degree ←? count_in_degrees g;
    queue ←? zero_in_degree in_degree (vertices g);
    res ←? kahn_loop (S (length (vertices g))) g in_degree queue [];
    if decide (length res ≠ length (vertices g)) then Raise ValueError_cycle
    else Ok res.

End TopologicalSort.

(** ** tree.py *)

Module UnionFind.

Record t : Type := Make {
  parent : gmap Vertex Vertex;
  rank : gmap Vertex Z
}.

Definition init (vs : list Vertex) : t :=
  {| parent := list_to_map ((fun v => (v, v)) <$> vs);
     rank := list_to_map ((fun v => (v, 0%Z)) <$> vs) |}.

(** [find], with path compression; the recursion follows parent links. *)
Fixpoint find (fuel : nat) (uf : t) (vertex : Vertex) : result (Vertex * t) :=
  match fuel with
  | O => Diverge
  | S fuel' =>
      p ←? getitem (parent uf) vertex;
      if decide (p ≠ vertex) then
        '(root, uf) ←? find fuel' uf p;
        let uf := {| parent := <[vertex := root]> (parent uf);
                     rank := rank uf |} in
        p' ←? getitem (parent uf) vertex;
        Ok (p', uf)
      else Ok (p, uf)
  end.

Definition fuel_of (uf : t) : nat := S (size (parent uf)).

Definition union (uf : t) (vertex1 vertex2 : Vertex) : result (bool * t) :=
  '(root1, uf) ←? find (fuel_of uf) uf vertex1;
  '(root2, uf) ←? find (fuel_of uf) uf vertex2;
  if decide (root1 = root2) then Ok (false, uf)
  else
    r1 ←? getitem (rank uf) root1;
    r2 ←? getitem (rank uf) root2;
    if decide (r1 < r2)%Z then
      Ok (true, {| parent := <[root1 := root2]> (parent uf);
                   rank := rank uf |})
    else if decide (r1 > r2)%Z then
      Ok (true, {| parent := <[root2 := root1]> (parent uf);
                   rank := rank uf |})
    else
      Ok (true, {| parent := <[root2 := root1]> (parent uf);
                   rank := <[root1 := (r1 + 1)%Z]> (rank uf) |}).

End UnionFind.

Module MinimumSpanningTree.

(** The order of Python on [str]: by code point, a proper prefix first. *)
Definition str_le (a b : Vertex) : Prop :=
  match String.compare a b with Gt => False | _ => True end.

#[global] Instance str_le_dec : RelDecision str_le.
Proof. intros a b. unfold str_le. destruct (String.compare a b); apply _. Defined.

(** [tuple(sorted([vertex, neighbor]))] *)
Definition sorted_pair (a b : Vertex) : Vertex * Vertex :=
  if decide (str_le a b) then (a, b) else (b, a).

(** The order of Python on the tuples [(weight, u, v)]. *)
Definition edge_le (e1 e2 : Z * Vertex * Vertex) : Prop :=
  let '(w1, u1, v1) := e1 in
  let '(w2, u2, v2) := e2 in
  (w1 < w2)%Z ∨
  (w1 = w2 ∧ (u1 ≠ u2 ∧ str_le u1 u2 ∨ u1 = u2 ∧ str_le v1 v2)).

#[global] Instance edge_le_dec : RelDecision edge_le.
Proof.
  intros [[w1 u1] v1] [[w2 u2] v2]. unfold edge_le. apply _.
Defined.

(** [edges.sort()]: a stable sort; insertion from the right keeps equal
    elements in their order. *)
Fixpoint insert_sorted (e : Z * Vertex * Vertex)
    (l : list (Z * Vertex * Vertex)) : list (Z * Vertex * Vertex) :=
  match l with
  | [] => [e]
  | x :: l' =>
      if decide (edge_le e x) then e :: l else x :: insert_sorted e l'
  end.

Definition sort (l : list (Z * Vertex * Vertex))
  : list (Z * Vertex * Vertex) :=
  foldr insert_sorted [] l.

(** The edge collection of [kruskal]; the state is [(edges, seen)]. *)
Definition collect_edges (g : Graph)
  : result (list (Z * Vertex * Vertex) * gset (Vertex * Vertex)) :=
  for_each
    (fun vertex st =>
       neighbors ←? get_neighbors g vertex;
       Ok (foldl
             (fun (st : list (Z * Vertex * Vertex) * gset (Vertex * Vertex))
                  (entry : Vertex * Z) =>
                let '(neighbor, weight) := entry in
                let edge := sorted_pair vertex neighbor in
                if decide (edge ∉ st.2) then
                  (st.1 ++ [(weight, vertex, neighbor)], {[edge]} ∪ st.2)
                else st)
             st neighbors))
    (vertices g) ([], ∅).

(** The state of the last loop of [kruskal]. *)
Record kruskal_state : Type := KState {
  uf : UnionFind.t;
  mst_edges : list (Vertex * Vertex * Z);
  total_weight : Z
}.

Definition kruskal (g : Graph) : result (list (Vertex * Vertex * Z) * Z) :=
  if is_directed g then Raise ValueError_kruskal_undirected_only
  else
    '(edges, _) ←? collect_edges g;
    let edges := sort edges in
    r ←? for_return
           (fun (e : Z * Vertex * Vertex) (st : kruskal_state) =>
              let '(weight, u, v) := e in
              '(merged, uf') ←? UnionFind.union (uf st) u v;
              if merged : bool then
                let st := KState uf' (mst_edges st ++ [(u, v, weight)])
                                 (total_weight st + weight) in
                if decide (Z.of_nat (length (mst_edges st))
                           = Z.of_nat (length (vertices g)) - 1)%Z
                then Ok (inl st)     (* break *)
                else Ok (inr st)
              else Ok (inr (KState uf' (mst_edges st) (total_weight st))))
           edges (KState (UnionFind.init (vertices g)) [] 0%Z);
    let st := match r with inl st => st | inr st => st end in
    Ok (mst_edges st, total_weight st).

(** The state of the [while] loop of [prim]. *)
Record prim_state : Type := PState {
  p_visited : gset Vertex;
  p_mst_edges : list (Vertex * Vertex * Z);
  p_total_weight : Z;
  available_edges : list (Z * Vertex * Vertex)
}.

(** [for neighbor, w in neighbors: if neighbor not in visited:
    available_edges.append((w, v, neighbor))] *)
Definition push_edges (v : Vertex) (visited : gset Vertex)
    (neighbors : list (Vertex * Z)) (available : list (Z * Vertex * Vertex))
  : list (Z * Vertex * Vertex) :=
  foldl (fun available (entry : Vertex * Z) =>
           let '(neighbor, w) := entry in
           if decide (neighbor ∉ visited) then available ++ [(w, v, neighbor)]
           else available)
        available neighbors.

Fixpoint prim_loop (fuel : nat) (g : Graph) (st : prim_state)
  : result prim_state :=
  match fuel with
  | O => Diverge
  | S fuel' =>
      if decide (available_edges st ≠ []
                 ∧ (size (p_visited st) < length (vertices g))%nat) then
        match sort (available_edges st) with
        | [] => Raise IndexError       (* pop from an empty list *)
        | (weight, u, v) :: rest =>
            if decide (v ∈ p_visited st) then
              prim_loop fuel' g
                (PState (p_visited st) (p_mst_edges st) (p_total_weight st)
                        rest)
            else
              let visited := {[v]} ∪ p_visited st in
              neighbors ←? get_neighbors g v;
              prim_loop fuel' g
                (PState visited (p_mst_edges st ++ [(u, v, weight)])
                        (p_total_weight st + weight)
                        (push_edges v visited neighbors rest))
        end
      else Ok st
  end.

(** The number of adjacency entries bounds the pops of [prim]'s loop. *)
Definition entry_count (g : Graph) : nat :=
  map_fold (fun _ l n => (length l + n)%nat) 0%nat (adj_list g).

Definition prim (g : Graph) (start_vertex : option Vertex)
  : result (list (Vertex * Vertex * Z) * Z) :=
  if is_directed g then Raise ValueError_prim_undirected_only
  else
    start_vertex ←? match start_vertex with
                    | Some v => Ok v
                    | None => match vertices g with
                              | v :: _ => Ok v
                              | [] => Raise IndexError
                              end
                    end;
    if decide (start_vertex ∉ vertices g) then
      Raise (ValueError_vertex_not_in_graph start_vertex)
    else
      let visited : gset Vertex := {[start_vertex]} in
      neighbors ←? get_neighbors g start_vertex;
      st ←? prim_loop (S (entry_count g)) g
              (PState visited [] 0%Z
                      (push_edges start_vertex visited neighbors []));
      Ok (p_mst_edges st, p_total_weight st).

End MinimumSpanningTree.

(** * Vocabulary of the properties *)

(** The cell [(i, j)] of a matrix without edges. *)
Definition fresh_cell (weighted : bool) (i j : nat) : cell :=
  if weighted then (if decide (i = j) then Num 0 else Inf) else Num 0.

(** [m[i][j]], when both positions are in range. *)
Definition cell_at (m : list (list cell)) (i j : nat) : option cell :=
  row ← m !! i; row !! j.

(** [square m n]: [n] rows of [n] cells each. *)
Definition square (m : list (list cell)) (n : nat) : Prop :=
  length m = n ∧ Forall (fun row => length row = n) m.

(** The adjacency sequence of a vertex, empty for a vertex without entry. *)
Definition neighbors_of (g : Graph) (u : Vertex) : list (Vertex * Z) :=
  default [] (adj_list g !! u).

(** What every built graph satisfies: the count is the length of the vertex
    list, the dictionary has an entry exactly for the vertices, every
    neighbour is a vertex, and the matrix is square of the right size. *)
Record wf (g : Graph) : Prop := Wf {
  wf_count : vertex_count g = length (vertices g);
  wf_dom : ∀ v, v ∈ vertices g ↔ is_Some (adj_list g !! v);
  wf_closed : ∀ u x w, (x, w) ∈ neighbors_of g u → x ∈ vertices g;
  wf_matrix : square (adj_matrix g) (vertex_count g)
}.

(** The entries an [add_edge source destination weight] call appends to the
    adjacency sequence of [u]. *)
Definition appended (directed : bool) (source destination : Vertex)
    (weight : Z) (u : Vertex) : list (Vertex * Z) :=
  (if decide (u = source) then [(destination, weight)] else [])
  ++ (if directed then []
      else if decide (u = destination) then [(source, weight)] else []).

(** The off-diagonal cell of a matrix without edges. *)
Definition no_edge_value (weighted : bool) : cell :=
  if weighted then Inf else Num 0.

(** [edge g u v]: the adjacency sequence of [u] has an entry for [v]. *)
Definition edge (g : Graph) (u v : Vertex) : Prop :=
  ∃ w, (v, w) ∈ neighbors_of g u.

(** [walk_to g s p v]: the vertex list [p] starts at [s], ends at [v], and
    each vertex is followed by one of its neighbours; it has
    [length p - 1] edges. *)
Inductive walk_to (g : Graph) (s : Vertex) : list Vertex → Vertex → Prop :=
  | walk_start : walk_to g s [s] s
  | walk_step (p : list Vertex) (u v : Vertex) :
      walk_to g s p u → edge g u v → walk_to g s (p ++ [v]) v.

(** Position of the first occurrence of [v] in [l] (0 when there is none). *)
Definition posn (l : list Vertex) (v : Vertex) : nat :=
  default 0%nat (index v l).

(** Position of the first entry for [v] in the adjacency sequence of [u]. *)
Definition position (g : Graph) (u v : Vertex) : nat :=
  posn ((neighbors_of g u).*1) v.

(** The adjacency positions a vertex list takes, step by step. *)
Fixpoint choices (g : Graph) (p : list Vertex) : list nat :=
  match p with
  | u :: ((v :: _) as p') => position g u v :: choices g p'
  | _ => []
  end.

(** Lexicographic order on position lists of one length. *)
Fixpoint lex_lt (a b : list nat) : Prop :=
  match a, b with
  | x :: a', y :: b' => (x < y)%nat ∨ (x = y ∧ lex_lt a' b')
  | _, _ => False
  end.

(** Equal, or smaller in the lexicographic order. *)
Definition lex_le (a b : list nat) : Prop := a = b ∨ lex_lt a b.

(** [before l u v]: [u] occurs in [l] at a position left of one of [v]. *)
Definition before (l : list Vertex) (u v : Vertex) : Prop :=
  ∃ i j, l !! i = Some u ∧ l !! j = Some v ∧ (i < j)%nat.

(** A topological order lists every vertex exactly once and puts the source
    of every edge before its target. *)
Definition topological_order (g : Graph) (l : list Vertex) : Prop :=
  NoDup l ∧ l ≡ₚ vertices g ∧ ∀ u v, edge g u v → before l u v.

(** The graph has a cycle: some vertex reaches itself along one edge or
    more. *)
Definition cyclic (g : Graph) : Prop := ∃ v, tc (edge g) v v.

(** No vertex reaches itself. *)
Definition acyclic (g : Graph) : Prop := ∀ v, ¬ tc (edge g) v v.

(** What both sorting functions are shown to do. *)
Definition sorts_or_detects (g : Graph) (r : result (list Vertex)) : Prop :=
  (∃ l, r = Ok l ∧ topological_order g l)
  ∨ (r = Raise ValueError_cycle ∧ cyclic g).

(** The number of occurrences of [v] in [l]. *)
Fixpoint count (v : Vertex) (l : list Vertex) : nat :=
  match l with
  | [] => 0
  | x :: l' => (if decide (x = v) then 1 else 0) + count v l'
  end.

(** The number of adjacency entries for [v] in the sequences of [us]. *)
Fixpoint in_count (g : Graph) (v : Vertex) (us : list Vertex) : nat :=
  match us with
  | [] => 0
  | u :: us' => count v ((neighbors_of g u).*1) + in_count g v us'
  end.

(** The graph of a successful construction (an empty graph otherwise; built
    graphs never take that branch, see [build_built_from]). *)
Definition graph_of (r : result Graph) : Graph :=
  match r with
  | Ok g => g
  | _ => Graph_init None false false
  end.

(** The graph a constructor call and a sequence of mutator calls leave. *)
Definition build (vs : option (list Vertex)) (directed weighted : bool)
    (ops : list op) : Graph :=
  graph_of (run_ops ops (Graph_init vs directed weighted)).

(** [example_1_kruskal_algorithm] of [3-spanning-tree-examples.py]: the
    seven weighted edges, added in order to an undirected weighted graph. *)
Definition spanning_ops : list op :=
  [AddEdge "A" "B" 4; AddEdge "A" "C" 2; AddEdge "B" "C" 1; AddEdge "B" "D" 5;
   AddEdge "C" "D" 8; AddEdge "C" "E" 10; AddEdge "D" "E" 2%Z].

(** The same scenario built from the edges alone. *)
Definition spanning_example : Graph := build None false true spanning_ops.

(** Two parallel edges between the same endpoints, the heavier added first. *)
Definition parallel_example : Graph :=
  build None false true [AddEdge "A" "B" 5; AddEdge "A" "B" 1%Z].

(** The components scenario: the path A-B-C, the triangle D-E-F and a
    self-loop at G. *)
Definition components_example : Graph :=
  build None false false
    [AddEdge "A" "B" 1; AddEdge "B" "C" 1; AddEdge "D" "E" 1;
     AddEdge "E" "F" 1; AddEdge "F" "D" 1; AddEdge "G" "G" 1%Z].

(** A graph with two shortest walks from A to D: through B (first in the
    adjacency sequence of A) and through C. *)
Definition diamond_example : Graph :=
  build None false false
    [AddEdge "A" "B" 1; AddEdge "A" "C" 1; AddEdge "C" "D" 1; AddEdge "B" "D" 1%Z].

(** The directed scenario: vertices A, B, C, D with the edges A→B, A→C,
    B→D, C→D; a second graph adds D→A. *)
Definition dag_ops : list op :=
  [AddEdge "A" "B" 1; AddEdge "A" "C" 1; AddEdge "B" "D" 1; AddEdge "C" "D" 1%Z].

(** The acyclic scenario. *)
Definition dag_example : Graph :=
  build (Some ["A"; "B"; "C"; "D"]) true false dag_ops.

(** The scenario with the closing edge. *)
Definition cycle_example : Graph :=
  build (Some ["A"; "B"; "C"; "D"]) true false (dag_ops ++ [AddEdge "D" "A" 1%Z]).

(** * Properties *)

(** ** Shape and contents of a freshly built matrix *)

Lemma square_replicate (c : cell) (n : nat) :
  square (replicate n (replicate n c)) n.
Proof.
  split; [by rewrite length_replicate|].
  apply Forall_replicate. by rewrite length_replicate.
Qed.

Lemma square_insert (m : list (list cell)) (n i j : nat) (row : list cell) (c : cell) :
  square m n → m !! i = Some row → square (<[i := <[j := c]> row]> m) n.
Proof.
  intros [Hlen Hrows] Hrow. split; [by rewrite length_insert|].
  apply Forall_insert; [done|]. rewrite length_insert.
  eapply (Forall_lookup_1 _ _ _ _ Hrows Hrow).
Qed.

Lemma square_set_diagonal (m : list (list cell)) (n i : nat) :
  square m n → square (set_diagonal m i) n.
Proof.
  intros Hsq. unfold set_diagonal. destruct (m !! i) eqn:Hrow; [|done].
  by eapply square_insert.
Qed.

Lemma square_row (m : list (list cell)) (n i : nat) :
  square m n → (i < n)%nat → ∃ row, m !! i = Some row ∧ length row = n.
Proof.
  intros [Hlen Hrows] Hi.
  destruct (lookup_lt_is_Some_2 m i) as [row Hrow]; [lia|].
  exists row. split; [done|]. eapply (Forall_lookup_1 _ _ _ _ Hrows Hrow).
Qed.

Lemma cell_at_insert (m : list (list cell)) (n i j a b : nat) (row : list cell) (c : cell) :
  square m n → m !! a = Some row → (b < n)%nat →
  cell_at (<[a := <[b := c]> row]> m) i j
  = if decide (i = a ∧ j = b) then Some c else cell_at m i j.
Proof.
  intros Hsq Hrow Hb. unfold cell_at.
  assert (a < length m)%nat by (by eapply lookup_lt_Some).
  assert (length row = n) as Hlr.
  { destruct Hsq as [_ Hrows]. eapply (Forall_lookup_1 _ _ _ _ Hrows Hrow). }
  destruct (decide (i = a)) as [->|Hia].
  - rewrite list_lookup_insert_eq; [|done]. simpl.
    destruct (decide (j = b)) as [->|Hjb].
    + rewrite list_lookup_insert_eq; [|lia]. by rewrite decide_True.
    + rewrite list_lookup_insert_ne; [|done].
      rewrite decide_False; [|naive_solver]. by rewrite Hrow.
  - rewrite list_lookup_insert_ne; [|done].
    rewrite decide_False; [done|naive_solver].
Qed.

Lemma cell_at_replicate (c : cell) (n i j : nat) :
  (i < n)%nat → (j < n)%nat →
  cell_at (replicate n (replicate n c)) i j = Some c.
Proof.
  intros Hi Hj. unfold cell_at.
  rewrite lookup_replicate_2; [|done]. simpl. by rewrite lookup_replicate_2.
Qed.

Lemma cell_at_set_diagonals (m : list (list cell)) (n a k i j : nat) :
  square m n → (a + k ≤ n)%nat →
  cell_at (foldl set_diagonal m (seq a k)) i j
  = if decide (i = j ∧ a ≤ i < a + k)%nat then Some (Num 0) else cell_at m i j.
Proof.
  revert m a. induction k as [|k IH]; intros m a Hsq Hle; simpl.
  { rewrite decide_False; [done|lia]. }
  rewrite IH; [|by apply square_set_diagonal|lia].
  unfold set_diagonal.
  destruct (square_row m n a Hsq) as (row & Hrow & Hlr); [lia|].
  rewrite Hrow. rewrite (cell_at_insert m n); [|done|done|lia].
  repeat case_decide; try done; lia.
Qed.

Lemma square_set_diagonals (m : list (list cell)) (n : nat) (l : list nat) :
  square m n → square (foldl set_diagonal m l) n.
Proof.
  revert m. induction l as [|a l IH]; intros m Hsq; [done|].
  simpl. apply IH. by apply square_set_diagonal.
Qed.

Lemma build_matrix_square (weighted : bool) (n : nat) :
  square (_build_matrix weighted n) n.
Proof.
  unfold _build_matrix. destruct weighted.
  - apply square_set_diagonals, square_replicate.
  - apply square_replicate.
Qed.

Lemma build_matrix_cell (weighted : bool) (n i j : nat) :
  (i < n)%nat → (j < n)%nat →
  cell_at (_build_matrix weighted n) i j = Some (fresh_cell weighted i j).
Proof.
  intros Hi Hj. unfold _build_matrix, fresh_cell. destruct weighted.
  - rewrite (cell_at_set_diagonals _ n); [|apply square_replicate|lia].
    rewrite cell_at_replicate; [|done..].
    repeat case_decide; try done; lia.
  - by apply cell_at_replicate.
Qed.

(** ** Well-formed graphs *)

Lemma neighbors_of_lookup (g : Graph) (u : Vertex) (l : list (Vertex * Z)) :
  adj_list g !! u = Some l → neighbors_of g u = l.
Proof. intros H. unfold neighbors_of. by rewrite H. Qed.

Lemma wf_lookup (g : Graph) (u : Vertex) :
  wf g → u ∈ vertices g → adj_list g !! u = Some (neighbors_of g u).
Proof.
  intros Hwf Hu. apply (wf_dom g Hwf) in Hu as [l Hl].
  by rewrite (neighbors_of_lookup g u l Hl).
Qed.

Lemma wf_neighbors_absent (g : Graph) (u : Vertex) :
  wf g → u ∉ vertices g → neighbors_of g u = [].
Proof.
  intros Hwf Hu. unfold neighbors_of.
  destruct (adj_list g !! u) eqn:Hl; [|done].
  exfalso. apply Hu, (wf_dom g Hwf). by eexists.
Qed.

Lemma wf_get_neighbors (g : Graph) (u : Vertex) :
  wf g → u ∈ vertices g → get_neighbors g u = Ok (neighbors_of g u).
Proof.
  intros Hwf Hu. unfold get_neighbors. by rewrite (wf_lookup g u Hwf Hu).
Qed.

Lemma init_lookup (vl : list Vertex) (v : Vertex) :
  (list_to_map ((fun v => (v, [])) <$> vl) : gmap Vertex (list (Vertex * Z))) !! v
  = if decide (v ∈ vl) then Some [] else None.
Proof.
  case_decide as Hv.
  - destruct (list_to_map _ !! v) as [l|] eqn:Hl.
    + apply elem_of_list_to_map_2 in Hl.
      apply list_elem_of_fmap in Hl as (y & Heq & _). by inversion Heq.
    + apply not_elem_of_list_to_map_2 in Hl. exfalso. apply Hl.
      rewrite <- list_fmap_compose. simpl. by rewrite list_fmap_id.
  - apply not_elem_of_list_to_map_1.
    rewrite <- list_fmap_compose. simpl. by rewrite list_fmap_id.
Qed.

Lemma wf_init (vs : option (list Vertex)) (directed weighted : bool) :
  wf (Graph_init vs directed weighted).
Proof.
  split; simpl.
  - done.
  - intros v. rewrite init_lookup. case_decide; [|split; [done|by intros [? ?]]].
    split; [by eexists|done].
  - intros u x w. unfold neighbors_of. simpl. rewrite init_lookup.
    case_decide; simpl; by intros ?%elem_of_nil.
  - apply build_matrix_square.
Qed.

Lemma add_vertex_id (v : Vertex) (g : Graph) :
  v ∈ vertices g → add_vertex v g = g.
Proof. intros Hv. unfold add_vertex. by rewrite decide_True. Qed.

Lemma add_vertex_vertices (v : Vertex) (g : Graph) :
  vertices (add_vertex v g)
  = if decide (v ∈ vertices g) then vertices g else vertices g ++ [v].
Proof. unfold add_vertex. by case_decide. Qed.

Lemma add_vertex_elem (v u : Vertex) (g : Graph) :
  u ∈ vertices (add_vertex v g) ↔ u = v ∨ u ∈ vertices g.
Proof.
  rewrite add_vertex_vertices. case_decide; [naive_solver|].
  rewrite elem_of_app, list_elem_of_singleton. naive_solver.
Qed.

Lemma add_vertex_directed (v : Vertex) (g : Graph) :
  is_directed (add_vertex v g) = is_directed g.
Proof. unfold add_vertex. by case_decide. Qed.

Lemma add_vertex_weighted (v : Vertex) (g : Graph) :
  is_weighted (add_vertex v g) = is_weighted g.
Proof. unfold add_vertex. by case_decide. Qed.

Lemma add_vertex_neighbors (v u : Vertex) (g : Graph) :
  wf g → neighbors_of (add_vertex v g) u = neighbors_of g u.
Proof.
  intros Hwf. unfold add_vertex. case_decide as Hv; [done|].
  unfold neighbors_of at 1. simpl.
  destruct (decide (v = u)) as [->|Hne].
  - rewrite lookup_insert_eq. simpl. by rewrite wf_neighbors_absent.
  - by rewrite lookup_insert_ne.
Qed.

Lemma add_vertex_wf (v : Vertex) (g : Graph) : wf g → wf (add_vertex v g).
Proof.
  intros Hwf. destruct (decide (v ∈ vertices g)) as [Hv|Hv].
  { by rewrite add_vertex_id. }
  split.
  - unfold add_vertex. rewrite decide_False; [|done]. simpl.
    rewrite length_app. simpl. rewrite (wf_count g Hwf). lia.
  - intros u. rewrite add_vertex_elem.
    unfold add_vertex. rewrite decide_False; [|done]. simpl.
    destruct (decide (v = u)) as [->|Hne].
    + rewrite lookup_insert_eq. split; [by eexists|by left].
    + rewrite lookup_insert_ne; [|done]. rewrite <- (wf_dom g Hwf). naive_solver.
  - intros u x w. rewrite add_vertex_neighbors; [|done].
    intros Hx. apply add_vertex_elem. right. by eapply wf_closed.
  - unfold add_vertex. rewrite decide_False; [|done]. simpl.
    apply build_matrix_square.
Qed.

Lemma add_vertex_NoDup (v : Vertex) (g : Graph) :
  NoDup (vertices g) → NoDup (vertices (add_vertex v g)).
Proof.
  intros Hnd. rewrite add_vertex_vertices. case_decide; [done|].
  apply NoDup_app. split_and!; [done| |apply NoDup_singleton].
  intros x Hx ->%list_elem_of_singleton. done.
Qed.

Lemma index_elem (v : Vertex) (l : list Vertex) :
  v ∈ l → ∃ i, index v l = Some i ∧ (i < length l)%nat ∧ l !! i = Some v.
Proof.
  induction l as [|x l IH]; [by intros ?%elem_of_nil|].
  intros Hv. simpl. case_decide as Hx.
  - subst. exists 0%nat. simpl. split_and!; [done|lia|done].
  - apply elem_of_cons in Hv as [->|Hv]; [done|].
    destruct (IH Hv) as (i & -> & Hi & Hl). exists (S i). simpl.
    split_and!; [done|lia|done].
Qed.

Lemma set_cell_ok (m : list (list cell)) (n i j : nat) (c : cell) :
  square m n → (i < n)%nat → (j < n)%nat →
  ∃ m', set_cell m i j c = Ok m' ∧ square m' n
        ∧ ∀ a b, cell_at m' a b
                 = if decide (a = i ∧ b = j) then Some c else cell_at m a b.
Proof.
  intros Hsq Hi Hj. unfold set_cell.
  destruct (square_row m n i Hsq Hi) as (row & Hrow & Hlr). rewrite Hrow.
  rewrite decide_True; [|lia]. eexists. split; [done|]. split.
  - by eapply square_insert.
  - intros a b. by rewrite (cell_at_insert m n).
Qed.

Lemma add_edge_spec (source destination : Vertex) (weight : Z) (g : Graph) :
  wf g →
  ∃ g', add_edge source destination weight g = Ok g'
        ∧ wf g'
        ∧ vertices g' = vertices (add_vertex destination (add_vertex source g))
        ∧ is_directed g' = is_directed g
        ∧ is_weighted g' = is_weighted g
        ∧ ∀ u, neighbors_of g' u
               = neighbors_of g u
                 ++ appended (is_directed g) source destination weight u.
Proof.
  intros Hwf. unfold add_edge.
  assert ((if decide (source ∈ vertices g) then g else add_vertex source g)
          = add_vertex source g) as ->.
  { case_decide; [by rewrite add_vertex_id|done]. }
  set (g1 := add_vertex source g).
  assert ((if decide (destination ∈ vertices g1) then g1
           else add_vertex destination g1) = add_vertex destination g1) as ->.
  { case_decide; [by rewrite add_vertex_id|done]. }
  set (g2 := add_vertex destination g1).
  assert (wf g2) as Hwf2 by (by do 2 apply add_vertex_wf).
  assert (source ∈ vertices g2) as Hs.
  { apply add_vertex_elem. right. apply add_vertex_elem. by left. }
  assert (destination ∈ vertices g2) as Hd by (apply add_vertex_elem; by left).
  assert (is_directed g2 = is_directed g) as Hdir
    by (unfold g2, g1; by rewrite !add_vertex_directed).
  assert (is_weighted g2 = is_weighted g) as Hwt
    by (unfold g2, g1; by rewrite !add_vertex_weighted).
  assert (∀ u, neighbors_of g2 u = neighbors_of g u) as Hnb.
  { intros u. unfold g2, g1. rewrite !add_vertex_neighbors; try done.
    by apply add_vertex_wf. }
  unfold append_entry at 1, getitem. rewrite (wf_lookup g2 source Hwf2 Hs). simpl.
  set (al1 := <[source := _]> (adj_list g2)).
  assert (dom al1 = dom (adj_list g2)) as Hdom1.
  { apply dom_insert_lookup_L. rewrite (wf_lookup g2 source Hwf2 Hs). by eexists. }
  assert (∃ al2, (if is_directed g2 then Ok al1
                  else append_entry al1 destination (source, weight)) = Ok al2
                 ∧ dom al2 = dom (adj_list g2)
                 ∧ ∀ u, default [] (al2 !! u)
                        = neighbors_of g u
                          ++ appended (is_directed g) source destination weight u)
    as (al2 & -> & Hdom2 & Hal2).
  { rewrite Hdir. unfold appended. destruct (is_directed g).
    - eexists. split; [done|]. split; [done|]. intros u. unfold al1.
      rewrite app_nil_r. destruct (decide (u = source)) as [->|Hne].
      + rewrite lookup_insert_eq. simpl. by rewrite Hnb.
      + rewrite lookup_insert_ne; [|done]. rewrite app_nil_r. apply Hnb.
    - unfold append_entry, getitem.
      assert (∃ l, al1 !! destination = Some l
                   ∧ l = neighbors_of g destination
                         ++ (if decide (destination = source)
                             then [(destination, weight)] else []))
        as (l & Hl & Heq).
      { unfold al1. destruct (decide (destination = source)) as [->|Hne].
        - rewrite lookup_insert_eq. eexists. split; [done|]. by rewrite Hnb.
        - rewrite lookup_insert_ne; [|done].
          rewrite (wf_lookup g2 destination Hwf2 Hd). eexists. split; [done|].
          by rewrite app_nil_r, Hnb. }
      rewrite Hl. simpl. eexists. split; [done|]. split.
      { rewrite dom_insert_lookup_L; [done|]. by eexists. }
      intros u.
      destruct (decide (u = destination)) as [->|Hne].
      + rewrite lookup_insert_eq. simpl. rewrite Heq.
        by rewrite <- app_assoc.
      + rewrite lookup_insert_ne; [|done].
        rewrite app_nil_r. unfold al1.
        destruct (decide (u = source)) as [->|Hne'].
        * rewrite lookup_insert_eq. simpl. by rewrite Hnb.
        * rewrite lookup_insert_ne; [|done]. rewrite app_nil_r. apply Hnb. }
  simpl.
  unfold list_index.
  destruct (index_elem source (vertices g2) Hs) as (i & -> & Hi & _).
  destruct (index_elem destination (vertices g2) Hd) as (j & -> & Hj & _).
  simpl. rewrite <- (wf_count g2 Hwf2) in Hi, Hj.
  set (c := edge_cell (is_weighted g2) weight).
  destruct (set_cell_ok (adj_matrix g2) _ i j c (wf_matrix g2 Hwf2) Hi Hj)
    as (m1 & -> & Hsq1 & _).
  simpl.
  assert (∃ m2, (if is_directed g2 then Ok m1 else set_cell m1 j i c) = Ok m2
                ∧ square m2 (vertex_count g2)) as (m2 & -> & Hsq2).
  { destruct (is_directed g2); [by eexists|].
    destruct (set_cell_ok m1 _ j i c Hsq1 Hj Hi) as (m2 & -> & Hsq2 & _).
    by eexists. }
  simpl. eexists. split; [done|].
  split_and!; try done.
  split; simpl.
  - apply (wf_count g2 Hwf2).
  - intros u. rewrite <- elem_of_dom, Hdom2, elem_of_dom. apply (wf_dom g2 Hwf2).
  - intros u x w. unfold neighbors_of at 1. simpl. rewrite Hal2.
    rewrite elem_of_app. intros [Hx|Hx].
    + rewrite <- Hnb in Hx. by eapply wf_closed.
    + unfold appended in Hx. apply elem_of_app in Hx.
      repeat case_decide; destruct (is_directed g);
        destruct Hx as [Hx|Hx];
        try apply elem_of_nil in Hx; try done;
        apply list_elem_of_singleton in Hx; by inversion Hx; subst.
  - done.
Qed.


(** ** Graphs built by the constructor and the mutators *)

Lemma for_each_app {A S : Type} (body : A → S → result S) (l1 l2 : list A) (st : S) :
  for_each body (l1 ++ l2) st = (st' ←? for_each body l1 st; for_each body l2 st').
Proof.
  revert st. induction l1 as [|x l1 IH]; intros st; simpl; [done|].
  destruct (body x st); simpl; [apply IH|done..].
Qed.

Lemma run_op_wf (o : op) (g : Graph) :
  wf g → ∃ g', run_op o g = Ok g' ∧ wf g' ∧ is_directed g' = is_directed g
               ∧ is_weighted g' = is_weighted g.
Proof.
  intros Hwf. destruct o as [v|s d w]; simpl.
  - eexists. split; [done|]. split; [by apply add_vertex_wf|].
    by rewrite add_vertex_directed, add_vertex_weighted.
  - destruct (add_edge_spec s d w g Hwf) as (g' & Hg' & Hwf' & _ & Hd & Hw & _).
    by exists g'.
Qed.

(** Induction over the calls that built a graph, last call last. *)
Lemma built_from_ind (vs : option (list Vertex)) (directed weighted : bool)
    (P : Graph → Prop) :
  P (Graph_init vs directed weighted) →
  (∀ g v, wf g → is_directed g = directed → is_weighted g = weighted →
          P g → P (add_vertex v g)) →
  (∀ g s d w g', wf g → is_directed g = directed → is_weighted g = weighted →
                 P g → add_edge s d w g = Ok g' → P g') →
  ∀ ops g, built_from vs directed weighted ops g →
           P g ∧ wf g ∧ is_directed g = directed ∧ is_weighted g = weighted.
Proof.
  intros Hinit Hav Hae ops. unfold built_from, run_ops.
  induction ops as [|o ops IH] using rev_ind; intros g Hg.
  - simpl in Hg. inversion Hg; subst. split_and!; try done. apply wf_init.
  - rewrite for_each_app in Hg.
    destruct (for_each run_op ops (Graph_init vs directed weighted))
      as [g1| |] eqn:Hg1; simpl in Hg; try done.
    destruct (IH g1 eq_refl) as (HP & Hwf & Hd & Hw).
    destruct (run_op_wf o g1 Hwf) as (g' & Hg' & Hwf' & Hd' & Hw').
    rewrite Hg' in Hg. inversion Hg; subst g'. clear Hg.
    split; [|split; [done|split; congruence]].
    destruct o as [v|s d w]; simpl in Hg'.
    + inversion Hg'; subst. by apply Hav.
    + by apply (Hae g1 s d w g).
Qed.

Lemma built_from_total (vs : option (list Vertex)) (directed weighted : bool)
    (ops : list op) :
  ∃ g, built_from vs directed weighted ops g.
Proof.
  unfold built_from, run_ops.
  induction ops as [|o ops IH] using rev_ind.
  - by eexists.
  - destruct IH as (g1 & Hg1). rewrite for_each_app, Hg1. simpl.
    assert (wf g1) as Hwf.
    { by eapply (built_from_ind vs directed weighted (fun _ => True)). }
    destruct (run_op_wf o g1 Hwf) as (g' & -> & _). by eexists.
Qed.

Lemma built_wf (g : Graph) : built g → wf g.
Proof.
  intros (vs & directed & weighted & ops & Hg).
  by eapply (built_from_ind vs directed weighted (fun _ => True)).
Qed.

Lemma built_from_NoDup (vs : option (list Vertex)) (directed weighted : bool)
    (ops : list op) (g : Graph) :
  NoDup (default [] vs) → built_from vs directed weighted ops g →
  NoDup (vertices g).
Proof.
  intros Hnd Hg.
  eapply (built_from_ind vs directed weighted (fun g => NoDup (vertices g)));
    [done| | |done].
  - intros g0 v _ _ _ Hg0. by apply add_vertex_NoDup.
  - intros g0 s d w g' Hwf _ _ Hg0 Hae.
    destruct (add_edge_spec s d w g0 Hwf) as (g1 & Hg1 & _ & Hv & _).
    rewrite Hg1 in Hae. inversion Hae; subst g1. rewrite Hv.
    by do 2 apply add_vertex_NoDup.
Qed.

(** C4: after a constructor call on a duplicate-free vertex list and any
    finite sequence of [add_vertex]/[add_edge] calls, no call has raised,
    [vertex_count] is the length of [vertices], the adjacency matrix is square
    of dimension [vertex_count], the vertex list is still duplicate-free, and
    the adjacency dictionary has exactly one entry for each vertex of the list
    (and none for anything else). *)
Theorem graph_invariants (vs : option (list Vertex)) (directed weighted : bool)
    (ops : list op) :
  NoDup (default [] vs) →
  ∃ g, run_ops ops (Graph_init vs directed weighted) = Ok g
       ∧ vertex_count g = length (vertices g)
       ∧ square (adj_matrix g) (vertex_count g)
       ∧ NoDup (vertices g)
       ∧ (∀ v, v ∈ vertices g →
               ∃ l, (v, l) ∈ map_to_list (adj_list g)
                    ∧ ∀ l', (v, l') ∈ map_to_list (adj_list g) → l' = l)
       ∧ (∀ v l, (v, l) ∈ map_to_list (adj_list g) → v ∈ vertices g).
Proof.
  intros Hnd.
  destruct (built_from_total vs directed weighted ops) as (g & Hg).
  exists g. split; [done|].
  assert (wf g) as Hwf by (apply built_wf; by repeat eexists).
  split_and!.
  - apply (wf_count g Hwf).
  - apply (wf_matrix g Hwf).
  - by eapply built_from_NoDup.
  - intros v Hv. exists (neighbors_of g v). split.
    + apply elem_of_map_to_list. by apply wf_lookup.
    + intros l' Hl'%elem_of_map_to_list.
      by rewrite (neighbors_of_lookup g v l' Hl').
  - intros v l Hl%elem_of_map_to_list. apply (wf_dom g Hwf). by eexists.
Qed.

Lemma graph_invariants_witness :
  ∃ g, run_ops [AddEdge "A" "B" 4; AddVertex "C"; AddEdge "C" "A" 1%Z]
         (Graph_init (Some ["A"; "D"]) false true) = Ok g
       ∧ vertex_count g = length (vertices g)
       ∧ square (adj_matrix g) (vertex_count g)
       ∧ NoDup (vertices g)
       ∧ (∀ v, v ∈ vertices g →
               ∃ l, (v, l) ∈ map_to_list (adj_list g)
                    ∧ ∀ l', (v, l') ∈ map_to_list (adj_list g) → l' = l)
       ∧ (∀ v l, (v, l) ∈ map_to_list (adj_list g) → v ∈ vertices g).
Proof.
  apply graph_invariants. simpl. apply (bool_decide_unpack _). by vm_compute.
Defined.

Lemma elem_of_appended (directed : bool) (s d : Vertex) (w : Z) (u x : Vertex) (w' : Z) :
  (x, w') ∈ appended directed s d w u
  ↔ (u = s ∧ x = d ∧ w' = w) ∨ (directed = false ∧ u = d ∧ x = s ∧ w' = w).
Proof.
  unfold appended. rewrite elem_of_app.
  destruct directed; repeat case_decide; subst;
    rewrite ?list_elem_of_singleton, ?elem_of_nil; naive_solver.
Qed.

(** In an undirected built graph every adjacency entry has its mirror image
    at the other endpoint. *)
Lemma built_mirror (g : Graph) (u v : Vertex) (w : Z) :
  built g → is_directed g = false →
  (v, w) ∈ neighbors_of g u → (u, w) ∈ neighbors_of g v.
Proof.
  intros (vs & directed & weighted & ops & Hg) Hund.
  pose (P := fun g => is_directed g = false →
                      ∀ u v, (v, w) ∈ neighbors_of g u → (u, w) ∈ neighbors_of g v).
  assert (P g) as HP; [|by apply HP].
  eapply (built_from_ind vs directed weighted P); [| | |done].
  - intros _ a b. unfold neighbors_of. simpl. rewrite init_lookup.
    case_decide; simpl; by intros ?%elem_of_nil.
  - intros g0 x Hwf _ _ IH Hd a b. rewrite !add_vertex_neighbors by done.
    apply IH. by rewrite add_vertex_directed in Hd.
  - intros g0 s d w0 g' Hwf _ _ IH Hae Hd a b.
    destruct (add_edge_spec s d w0 g0 Hwf) as (g1 & Hg1 & _ & _ & Hd1 & _ & Hnb).
    rewrite Hg1 in Hae. inversion Hae; subst g1. rewrite Hd in Hd1.
    rewrite !Hnb, !elem_of_app, !elem_of_appended.
    intros [Hin|Hin]; [left; by apply IH|right]. naive_solver.
Qed.

(** C5: in an undirected graph built by the constructor and the mutators,
    for distinct vertices [u] and [v] and any weight [w], [(v, w)] is in the
    adjacency sequence of [u] iff [(u, w)] is in the adjacency sequence of
    [v]. *)
Theorem undirected_symmetry (g : Graph) (u v : Vertex) (w : Z) :
  built g → is_directed g = false → u ≠ v →
  ((v, w) ∈ neighbors_of g u ↔ (u, w) ∈ neighbors_of g v).
Proof. intros Hb Hund _. split; by apply built_mirror. Qed.

(** ** The matrix after [add_vertex] *)

Lemma index_lookup (v : Vertex) (l : list Vertex) (i : nat) :
  index v l = Some i → l !! i = Some v.
Proof.
  revert i. induction l as [|x l IH]; intros i; simpl; [done|].
  case_decide as Hx.
  - intros [= <-]. by subst.
  - destruct (index v l) as [k|]; simpl; [|done].
    intros [= <-]. by apply IH.
Qed.

(** C9: on a built graph with at least one adjacency entry, [add_vertex] of
    a new vertex rebuilds the matrix from scratch, one row and column larger:
    it is the matrix the constructor builds for an edge-free graph on the new
    vertex list, every off-diagonal cell holds the no-edge value ([Inf] when
    weighted, [Num 0] otherwise), the adjacency sequences are what they were,
    and so every adjacency entry now sits on a matrix cell holding the
    edge-free value; that cell differs from what [add_edge] had written there,
    except for a weighted self-loop of weight 0 (whose cell is 0 either way).
    The adjacency list still has an entry, the matrix records none. *)
Theorem add_vertex_forgets_edges (g : Graph) (v : Vertex) :
  built g → (∃ u x w, (x, w) ∈ neighbors_of g u) → v ∉ vertices g →
  let g' := add_vertex v g in
  vertex_count g' = S (vertex_count g)
  ∧ adj_matrix g'
    = adj_matrix (Graph_init (Some (vertices g')) (is_directed g) (is_weighted g))
  ∧ (∀ i j, (i < vertex_count g')%nat → (j < vertex_count g')%nat → i ≠ j →
            cell_at (adj_matrix g') i j = Some (no_edge_value (is_weighted g)))
  ∧ (∀ u, neighbors_of g' u = neighbors_of g u)
  ∧ (∀ u x w, (x, w) ∈ neighbors_of g' u →
        ∃ i j, index u (vertices g') = Some i ∧ index x (vertices g') = Some j
               ∧ cell_at (adj_matrix g') i j
                 = Some (fresh_cell (is_weighted g) i j)
               ∧ (u ≠ x ∨ is_weighted g = false ∨ w ≠ 0%Z →
                  cell_at (adj_matrix g') i j
                  ≠ Some (edge_cell (is_weighted g) w)))
  ∧ (∃ u x w, (x, w) ∈ neighbors_of g' u).
Proof.
  intros Hb (u0 & x0 & w0 & Hin0) Hv g'.
  assert (wf g) as Hwf by (by apply built_wf).
  assert (wf g') as Hwf' by (by apply add_vertex_wf).
  assert (vertex_count g' = S (vertex_count g)) as Hcount.
  { unfold g', add_vertex. by rewrite decide_False. }
  assert (adj_matrix g' = _build_matrix (is_weighted g) (vertex_count g')) as Hm.
  { unfold g', add_vertex. by rewrite decide_False. }
  assert (∀ u, neighbors_of g' u = neighbors_of g u) as Hnb.
  { intros u. by apply add_vertex_neighbors. }
  split_and!.
  - done.
  - rewrite Hm. simpl. by rewrite (wf_count g' Hwf').
  - intros i j Hi Hj Hne. rewrite Hm, build_matrix_cell by done.
    unfold fresh_cell, no_edge_value. destruct (is_weighted g); [|done].
    by rewrite decide_False.
  - done.
  - intros u x w Hin.
    assert (x ∈ vertices g') as Hx by (by eapply wf_closed).
    assert (u ∈ vertices g') as Hu.
    { destruct (decide (u ∈ vertices g')) as [|Hn]; [done|].
      rewrite (wf_neighbors_absent g' u Hwf' Hn) in Hin.
      by apply elem_of_nil in Hin. }
    destruct (index_elem u _ Hu) as (i & Hi & Hil & Hiu).
    destruct (index_elem x _ Hx) as (j & Hj & Hjl & Hjx).
    exists i, j. rewrite <- (wf_count g' Hwf') in Hil, Hjl.
    rewrite Hm, build_matrix_cell by done. split_and!; try done.
    intros Hcase. unfold fresh_cell, edge_cell.
    destruct (is_weighted g); [|done].
    case_decide as Hij; [|done]. subst j.
    assert (u = x) as -> by congruence.
    destruct Hcase as [|[|]]; [done..|]. congruence.
  - exists u0, x0, w0. by rewrite Hnb.
Qed.

(** ** [get_edge_weight] *)

Lemma first_weight_None (d : Vertex) (l : list (Vertex * Z)) :
  first_weight d l = None ↔ ∀ w, (d, w) ∉ l.
Proof.
  induction l as [|[x w0] l IH]; simpl.
  - split; [intros _ w Hw; by apply elem_of_nil in Hw|done].
  - case_decide as Hx.
    + subst. split; [done|]. intros H. exfalso. apply (H w0). by left.
    + rewrite IH. split; intros H w.
      * rewrite elem_of_cons. intros [[= ? ?]|?]; [done|]. by apply (H w).
      * intros Hw. apply (H w). by right.
Qed.

(** C10: on a built graph, [get_edge_weight source destination] returns the
    sentinel [None] exactly when [source] is a vertex of the graph and none of
    its adjacency entries has [destination] as neighbour; when [source] is not
    a vertex of the graph the call raises [KeyError]. *)
Theorem get_edge_weight_sentinel (g : Graph) (source destination : Vertex) :
  built g →
  (get_edge_weight g source destination = Ok None
   ↔ source ∈ vertices g ∧ ∀ w, (destination, w) ∉ neighbors_of g source)
  ∧ (source ∉ vertices g →
     get_edge_weight g source destination = Raise (KeyError source)).
Proof.
  intros Hwf%built_wf. unfold get_edge_weight, getitem.
  destruct (decide (source ∈ vertices g)) as [Hs|Hs].
  - rewrite (wf_lookup g source Hwf Hs). simpl. split; [|done].
    rewrite <- first_weight_None. split.
    + by intros [= ->].
    + by intros [_ ->].
  - assert (adj_list g !! source = None) as ->.
    { destruct (adj_list g !! source) eqn:Hl; [|done].
      exfalso. apply Hs, (wf_dom g Hwf). by eexists. }
    simpl. split; [|done]. split; [done|]. by intros [? _].
Qed.

(** ** Graphs given by their construction *)

Lemma build_built_from (vs : option (list Vertex)) (directed weighted : bool)
    (ops : list op) :
  built_from vs directed weighted ops (build vs directed weighted ops).
Proof.
  destruct (built_from_total vs directed weighted ops) as [g Hg].
  unfold build. unfold built_from in *. by rewrite Hg.
Qed.

Lemma build_built (vs : option (list Vertex)) (directed weighted : bool)
    (ops : list op) :
  built (build vs directed weighted ops).
Proof. exists vs, directed, weighted, ops. apply build_built_from. Qed.

(** ** [DFS.has_cycle] on undirected graphs *)

Lemma size_list_to_set_le (l : list Vertex) :
  (size (list_to_set l : gset Vertex) ≤ length l)%nat.
Proof.
  induction l as [|x l IH]; [done|].
  rewrite list_to_set_cons, size_union_alt, size_singleton, length_cons.
  assert (size ((list_to_set l : gset Vertex) ∖ {[x]})
          ≤ size (list_to_set l : gset Vertex))%nat
    by (apply subseteq_size; set_solver).
  lia.
Qed.

Lemma size_unvisited_lt (g : Graph) (x : Vertex) (V : gset Vertex) :
  x ∈ vertices g → x ∉ V →
  (size ((list_to_set (vertices g) : gset Vertex) ∖ ({[x]} ∪ V))
   < size ((list_to_set (vertices g) : gset Vertex) ∖ V))%nat.
Proof.
  intros Hx HV. apply subset_size. split; [set_solver|].
  intros Hsub. assert (x ∈ (list_to_set (vertices g) : gset Vertex) ∖ V) as Hin.
  { apply elem_of_difference. split; [by apply elem_of_list_to_set|done]. }
  apply Hsub in Hin. set_solver.
Qed.

Section has_cycle.

Context (g : Graph).
Hypothesis Hwf : wf g.
Hypothesis Hsym : ∀ u v w, u ≠ v →
  (v, w) ∈ neighbors_of g u → (u, w) ∈ neighbors_of g v.

(** A call entered along an edge from a vertex that is still on the
    recursion stack finds that vertex again and answers [True]. *)
Lemma util_child_true (fuel : nat) (x p : Vertex) (w : Z) (V R : gset Vertex) :
  x ∈ vertices g → x ∉ V → p ∈ V → p ∈ R → (x, w) ∈ neighbors_of g p →
  (size ((list_to_set (vertices g) : gset Vertex) ∖ V) ≤ fuel)%nat →
  ∃ st', DFS.has_cycle_util fuel g x (V, R) = Ok (true, st').
Proof.
  revert x p w V R. induction fuel as [|fuel IH]; intros x p w V R Hx HxV HpV HpR Hpx Hfuel.
  { pose proof (size_unvisited_lt g x V Hx HxV). lia. }
  simpl. rewrite (wf_get_neighbors g x Hwf Hx). simpl.
  assert (p ≠ x) as Hne by congruence.
  assert ((p, w) ∈ neighbors_of g x) as Hxp by (by apply Hsym).
  assert (∀ l, (p, w) ∈ l → (∀ e, e ∈ l → e ∈ neighbors_of g x) →
               ∃ st', for_return (DFS.util_body (DFS.has_cycle_util fuel g)) l
                        ({[x]} ∪ V, {[x]} ∪ R) = Ok (inl (true, st')))
    as Hloop.
  { induction l as [|[y wy] l IHl]; [by intros ?%elem_of_nil|].
    intros Hin Hsub. simpl. unfold DFS.util_body at 1. simpl.
    case_decide as Hy.
    - assert ((y, wy) ∈ neighbors_of g x) as Hxy by (apply Hsub; by left).
      destruct (IH y x wy ({[x]} ∪ V) ({[x]} ∪ R)) as [st' ->];
        [by eapply wf_closed|done|set_solver|set_solver|done| |].
      { pose proof (size_unvisited_lt g x V Hx HxV). lia. }
      simpl. by eexists.
    - case_decide as Hr; simpl; [by eexists|].
      apply IHl.
      + apply elem_of_cons in Hin as [[= <- <-]|Hin]; [|done].
        exfalso. apply Hr. set_solver.
      + intros e He. apply Hsub. by right. }
  destruct (Hloop (neighbors_of g x) Hxp) as [st' ->]; [done|].
  simpl. by eexists.
Qed.

(** A root call on a vertex with an adjacency entry answers [True] when
    every vertex visited before has none. *)
Lemma util_root_true (fuel : nat) (x : Vertex) (V R : gset Vertex) :
  x ∈ vertices g → x ∉ V → neighbors_of g x ≠ [] →
  (∀ u, u ∈ V → neighbors_of g u = []) →
  (size ((list_to_set (vertices g) : gset Vertex) ∖ V) ≤ fuel)%nat →
  ∃ st', DFS.has_cycle_util fuel g x (V, R) = Ok (true, st').
Proof.
  intros Hx HxV Hnb Hiso Hfuel.
  pose proof (size_unvisited_lt g x V Hx HxV) as Hlt.
  destruct fuel as [|fuel]; [lia|].
  simpl. rewrite (wf_get_neighbors g x Hwf Hx). simpl.
  destruct (neighbors_of g x) as [|[y wy] l] eqn:Hl; [done|].
  simpl. unfold DFS.util_body at 1. simpl.
  assert ((y, wy) ∈ neighbors_of g x) as Hxy by (rewrite Hl; by left).
  case_decide as Hy.
  - destruct (util_child_true fuel y x wy ({[x]} ∪ V) ({[x]} ∪ R)) as [st' ->];
      [by eapply wf_closed|done|set_solver|set_solver|done|lia|].
    simpl. by eexists.
  - case_decide as Hr; simpl; [by eexists|].
    exfalso. destruct (decide (y = x)) as [->|Hne]; [set_solver|].
    assert (y ∈ V) as HyV.
    { set_solver. }
    assert ((x, wy) ∈ neighbors_of g y) as Hyx by (by apply Hsym).
    rewrite (Hiso y HyV) in Hyx. by apply elem_of_nil in Hyx.
Qed.

(** A root call on a vertex without adjacency entries answers [False]. *)
Lemma util_root_false (fuel : nat) (x : Vertex) (V R : gset Vertex) :
  x ∈ vertices g → neighbors_of g x = [] →
  DFS.has_cycle_util (S fuel) g x (V, R)
  = Ok (false, ({[x]} ∪ V, ({[x]} ∪ R) ∖ {[x]})).
Proof.
  intros Hx Hnb. simpl. rewrite (wf_get_neighbors g x Hwf Hx), Hnb. simpl.
  unfold DFS.set_remove. rewrite decide_True; [done|set_solver].
Qed.

Lemma has_cycle_loop (l : list Vertex) (V R : gset Vertex) :
  (∀ x, x ∈ l → x ∈ vertices g) →
  (∀ u, u ∈ V → neighbors_of g u = []) →
  (∃ u, u ∈ l ∧ neighbors_of g u ≠ []) →
  for_return (DFS.root_body g) l (V, R) = Ok (inl true).
Proof.
  revert V R. induction l as [|x l IH]; intros V R Hsub Hiso (u & Hu & Hnb).
  { by apply elem_of_nil in Hu. }
  assert (x ∈ vertices g) as Hx by (apply Hsub; by left).
  assert (size ((list_to_set (vertices g) : gset Vertex) ∖ V)
          ≤ length (vertices g))%nat as Hfuel.
  { etrans; [|apply size_list_to_set_le]. apply subseteq_size. set_solver. }
  simpl. unfold DFS.root_body at 1. simpl. case_decide as HxV.
  - destruct (decide (neighbors_of g x = [])) as [Hnil|Hcons].
    + destruct (length (vertices g)) as [|n] eqn:Hlen.
      { destruct (vertices g); [by apply elem_of_nil in Hx|done]. }
      rewrite (util_root_false n x V R Hx Hnil). simpl.
      apply IH.
      * intros y Hy. apply Hsub. by right.
      * intros y [->%elem_of_singleton|Hy]%elem_of_union; [done|by apply Hiso].
      * exists u. split; [|done].
        apply elem_of_cons in Hu as [->|Hu]; [done|done].
    + destruct (util_root_true (length (vertices g)) x V R) as [st' ->]; try done.
  - simpl. apply IH.
    + intros y Hy. apply Hsub. by right.
    + done.
    + exists u. split; [|done].
      apply elem_of_cons in Hu as [->|Hu]; [|done].
      exfalso. by apply Hnb, Hiso.
Qed.

End has_cycle.

(** C6: on an undirected graph built by the constructor and the mutators
    that has at least one adjacency entry (at least one edge was added),
    [DFS.has_cycle] returns [True]. *)
Theorem has_cycle_undirected (g : Graph) :
  built g → is_directed g = false → (∃ u x w, (x, w) ∈ neighbors_of g u) →
  DFS.has_cycle g = Ok true.
Proof.
  intros Hb Hund (u & x & w & Hin).
  assert (wf g) as Hwf by (by apply built_wf).
  assert (∀ a b c, a ≠ b → (b, c) ∈ neighbors_of g a → (a, c) ∈ neighbors_of g b)
    as Hsym.
  { intros a b c _ Hab. by apply built_mirror. }
  assert (u ∈ vertices g) as Hu.
  { destruct (decide (u ∈ vertices g)) as [|Hn]; [done|].
    rewrite (wf_neighbors_absent g u Hwf Hn) in Hin. by apply elem_of_nil in Hin. }
  assert (neighbors_of g u ≠ []) as Hnb.
  { intros Hnil. rewrite Hnil in Hin. by apply elem_of_nil in Hin. }
  unfold DFS.has_cycle.
  rewrite (has_cycle_loop g Hwf Hsym (vertices g) ∅ ∅); [done|done| |by exists u].
  by intros ? ?%elem_of_empty.
Qed.

(** ** The scenarios of the example scripts *)

(** C1, at the failing input: on the connected undirected weighted graph with
    the parallel edges (A,B,5) and (A,B,1), [kruskal] keeps only the first
    edge collected for the endpoint pair and returns total weight 5, while
    [prim] returns total weight 1. *)
Theorem kruskal_prim_parallel_edges :
  MinimumSpanningTree.kruskal parallel_example = Ok ([("A", "B", 5%Z)], 5%Z)
  ∧ MinimumSpanningTree.prim parallel_example None
    = Ok ([("A", "B", 1%Z)], 1%Z).
Proof. split; by vm_compute. Qed.

(** C7 as stated fails: the total weight [kruskal] returns on the scenario
    graph is not 9. *)
Lemma kruskal_example_not_9 :
  ¬ ∃ edges, MinimumSpanningTree.kruskal spanning_example = Ok (edges, 9%Z).
Proof. intros [edges H]. vm_compute in H. by inversion H. Qed.

(** C7, amended: on the scenario graph (built from the edges alone, or on the
    vertex list A..E given to the constructor as the example script does),
    [kruskal] returns the edges B-C:1, A-C:2, D-E:2, B-D:5 and the total
    weight 10. *)
Theorem kruskal_example_total :
  MinimumSpanningTree.kruskal spanning_example
  = Ok ([("B", "C", 1%Z); ("A", "C", 2%Z); ("D", "E", 2%Z); ("B", "D", 5%Z)],
        10%Z)
  ∧ MinimumSpanningTree.kruskal
      (build (Some ["A"; "B"; "C"; "D"; "E"]) false true spanning_ops)
    = Ok ([("B", "C", 1%Z); ("A", "C", 2%Z); ("D", "E", 2%Z); ("B", "D", 5%Z)],
          10%Z).
Proof. split; by vm_compute. Qed.

(** C8: on the scenario graph [connected_components] returns exactly three
    components, with members A, B, C, then D, E, F, then G. *)
Theorem connected_components_example :
  BFS.connected_components components_example
  = Ok [["A"; "B"; "C"]; ["D"; "E"; "F"]; ["G"]].
Proof. by vm_compute. Qed.

(** ** Instances of the general theorems *)

Lemma undirected_symmetry_witness :
  ("B", 4%Z) ∈ neighbors_of spanning_example "A"
  ↔ ("A", 4%Z) ∈ neighbors_of spanning_example "B".
Proof.
  apply (undirected_symmetry spanning_example "A" "B" 4).
  - apply build_built.
  - by vm_compute.
  - by intros [=].
Defined.

Lemma has_cycle_undirected_witness :
  DFS.has_cycle (build None false false [AddEdge "A" "B" 1%Z]) = Ok true.
Proof.
  apply has_cycle_undirected.
  - apply build_built.
  - by vm_compute.
  - exists "A", "B", 1%Z. vm_compute. by left.
Defined.

Lemma get_edge_weight_sentinel_witness :
  (get_edge_weight spanning_example "A" "E" = Ok None
   ↔ "A" ∈ vertices spanning_example
     ∧ ∀ w, ("E", w) ∉ neighbors_of spanning_example "A")
  ∧ ("Z" ∉ vertices spanning_example →
     get_edge_weight spanning_example "Z" "E" = Raise (KeyError "Z")).
Proof.
  split.
  - apply (get_edge_weight_sentinel spanning_example "A" "E"), build_built.
  - apply (get_edge_weight_sentinel spanning_example "Z" "E"), build_built.
Defined.

Lemma add_vertex_forgets_edges_witness :
  let g := build None false true [AddEdge "A" "B" 7%Z] in
  adj_matrix g = [[Num 0; Num 7]; [Num 7; Num 0]]
  ∧ adj_matrix (add_vertex "C" g)
    = [[Num 0; Inf; Inf]; [Inf; Num 0; Inf]; [Inf; Inf; Num 0]]
  ∧ neighbors_of (add_vertex "C" g) "A" = [("B", 7%Z)]
  ∧ ∃ u x w, (x, w) ∈ neighbors_of (add_vertex "C" g) u.
Proof.
  intros g.
  destruct (add_vertex_forgets_edges g "C") as (_ & _ & _ & _ & _ & Hex).
  - apply build_built.
  - exists "A", "B", 7%Z. vm_compute. by left.
  - apply (bool_decide_unpack _). by vm_compute.
  - split_and!; [by vm_compute..|exact Hex].
Defined.

(** ** Walks along adjacency entries *)

Lemma walk_to_vertices (g : Graph) (s : Vertex) (p : list Vertex) (v : Vertex) :
  wf g → s ∈ vertices g → walk_to g s p v → v ∈ vertices g.
Proof.
  intros Hwf Hs Hp. induction Hp as [|p u v _ _ [w Hw]]; [done|].
  by eapply wf_closed.
Qed.

Lemma walk_to_length (g : Graph) (s : Vertex) (p : list Vertex) (v : Vertex) :
  walk_to g s p v → (1 ≤ length p)%nat.
Proof. intros Hp. destruct Hp; [simpl; lia|]. rewrite length_app. simpl. lia. Qed.

Lemma nodup_fst_functional {A B : Type} (l : list (A * B)) (x : A) (y1 y2 : B) :
  NoDup (l.*1) → (x, y1) ∈ l → (x, y2) ∈ l → y1 = y2.
Proof.
  intros Hnd [i Hi]%list_elem_of_lookup [j Hj]%list_elem_of_lookup.
  assert (i = j) as ->.
  { eapply (NoDup_lookup _ _ _ x Hnd); rewrite list_lookup_fmap.
    - by rewrite Hi.
    - by rewrite Hj. }
  congruence.
Qed.

(** ** Adjacency positions and the order of ties *)

Lemma posn_cons_ne (l : list Vertex) (y x : Vertex) :
  x ∈ l → y ≠ x → posn (y :: l) x = S (posn l x).
Proof.
  intros Hx Hne. unfold posn. simpl. rewrite decide_False by done.
  destruct (index_elem x l Hx) as (i & -> & _). done.
Qed.

Lemma posn_cons_eq (l : list Vertex) (x : Vertex) : posn (x :: l) x = 0%nat.
Proof. unfold posn. simpl. by rewrite decide_True. Qed.

Lemma lex_lt_app_l (a b c d : list nat) :
  length a = length b → lex_lt a b → lex_lt (a ++ c) (b ++ d).
Proof.
  revert b. induction a as [|x a IH]; intros [|y b] Hlen Hlt; try done.
  simpl in *. destruct Hlt as [?|[-> ?]]; [by left|].
  right. split; [done|]. apply IH; [lia|done].
Qed.

Lemma lex_lt_app_r (a c d : list nat) : lex_lt c d → lex_lt (a ++ c) (a ++ d).
Proof. intros Hlt. induction a as [|x a IH]; [done|]. simpl. by right. Qed.

Lemma lex_lt_trans (a b c : list nat) : lex_lt a b → lex_lt b c → lex_lt a c.
Proof.
  revert b c. induction a as [|x a IH]; intros [|y b] [|z c] Hab Hbc; try done.
  simpl in *. destruct Hab as [?|[-> ?]], Hbc as [?|[-> ?]].
  - left. lia.
  - by left.
  - by left.
  - right. split; [done|]. by eapply IH.
Qed.

Lemma lex_le_lt_trans (a b c : list nat) : lex_le a b → lex_lt b c → lex_lt a c.
Proof. intros [->|Hab] Hbc; [done|by eapply lex_lt_trans]. Qed.

Lemma lex_le_snoc (a b : list nat) (x : nat) :
  length a = length b → lex_le a b → lex_le (a ++ [x]) (b ++ [x]).
Proof. intros Hlen [->|Hlt]; [by left|right; by apply lex_lt_app_l]. Qed.

Lemma choices_snoc (g : Graph) (p : list Vertex) (u v : Vertex) :
  last p = Some u → choices g (p ++ [v]) = choices g p ++ [position g u v].
Proof.
  induction p as [|a [|b p] IH]; [done| |].
  - intros [= ->]. done.
  - intros Hlast. specialize (IH Hlast).
    change (position g a b :: choices g ((b :: p) ++ [v])
            = position g a b :: choices g (b :: p) ++ [position g u v]).
    by rewrite IH.
Qed.

Lemma length_choices (g : Graph) (p : list Vertex) :
  length (choices g p) = (length p - 1)%nat.
Proof.
  induction p as [|a [|b p] IH]; [done..|].
  cbn [choices length] in *. lia.
Qed.

Lemma walk_to_last (g : Graph) (s : Vertex) (p : list Vertex) (v : Vertex) :
  walk_to g s p v → last p = Some v.
Proof. intros Hp. destruct Hp; [done|]. by rewrite last_snoc. Qed.

Lemma walk_to_inv (g : Graph) (s : Vertex) (q : list Vertex) (x : Vertex) :
  walk_to g s q x →
  (q = [s] ∧ x = s) ∨ ∃ q' y, q = q' ++ [x] ∧ walk_to g s q' y ∧ edge g y x.
Proof. intros Hq. destruct Hq as [|q' y x Hq' He]; [by left|right; by eauto]. Qed.

(** ** [BFS.shortest_path] *)

(** What the [for] loop over the neighbours of the dequeued vertex does to
    [visited] and to the queue: the unvisited neighbours join, each once,
    with the path extended by them, in the order of their first entries. *)
Lemma enqueue_path_fold (path : list Vertex) (l : list (Vertex * Z))
    (V : gset Vertex) (Q : list (Vertex * list Vertex)) :
  ∃ new, foldl (BFS.enqueue_path path) (V, Q) l
         = (list_to_set (new.*1) ∪ V, Q ++ new)
         ∧ NoDup (new.*1)
         ∧ (∀ x, x ∈ (new.*1) → (x ∉ V) ∧ x ∈ (l.*1))
         ∧ (∀ x, x ∈ (l.*1) → x ∈ V ∨ x ∈ (new.*1))
         ∧ (∀ v p, (v, p) ∈ new → p = path ++ [v])
         ∧ (∀ i j a b, (new.*1) !! i = Some a → (new.*1) !! j = Some b →
                       (i < j)%nat → (posn (l.*1) a < posn (l.*1) b)%nat).
Proof.
  revert V Q. induction l as [|[y w] l IH]; intros V Q.
  { exists []. simpl. split_and!.
    - f_equal; [set_solver|by rewrite app_nil_r].
    - constructor.
    - by intros x ?%elem_of_nil.
    - by intros x ?%elem_of_nil.
    - by intros v p ?%elem_of_nil.
    - by intros i j a b ?. }
  cbn [foldl]. unfold BFS.enqueue_path at 2. case_decide as Hy.
  - destruct (IH V Q) as (new & -> & Hnd & Hnew & Hcov & Hpath & Hord).
    exists new. split_and!; try done.
    + intros x Hx. destruct (Hnew x Hx). split; [done|]. by right.
    + intros x [->|Hx]%elem_of_cons; [by left|by apply Hcov].
    + intros i j a b Ha Hb Hij. rewrite fmap_cons. cbn [fst].
      destruct (Hnew a) as [HaV Hal]; [by eapply list_elem_of_lookup_2|].
      destruct (Hnew b) as [HbV Hbl]; [by eapply list_elem_of_lookup_2|].
      rewrite !posn_cons_ne by congruence.
      pose proof (Hord i j a b Ha Hb Hij). lia.
  - destruct (IH ({[y]} ∪ V) (Q ++ [(y, path ++ [y])]))
      as (new & -> & Hnd & Hnew & Hcov & Hpath & Hord).
    exists ((y, path ++ [y]) :: new). split_and!.
    + f_equal; [set_solver|by rewrite <- app_assoc].
    + simpl. constructor; [|done]. intros Hx. apply Hnew in Hx. set_solver.
    + intros x [->|Hx]%elem_of_cons; [split; [done|by left]|].
      destruct (Hnew x Hx). split; [set_solver|by right].
    + intros x [->|Hx]%elem_of_cons; [right; by left|].
      destruct (Hcov x Hx) as [Hin|Hin]; [|right; by right].
      apply elem_of_union in Hin as [->%elem_of_singleton|Hin];
        [right; by left|by left].
    + intros v p [[= -> ->]|Hin]%elem_of_cons; [done|by apply Hpath].
    + intros i j a b Ha Hb Hij. rewrite (fmap_cons fst _ l). cbn [fst].
      destruct j as [|j]; [lia|]. cbn in Hb.
      destruct (Hnew b) as [HbV Hbl]; [by eapply list_elem_of_lookup_2|].
      rewrite (posn_cons_ne _ y b) by set_solver.
      destruct i as [|i]; cbn in Ha.
      * injection Ha as <-. rewrite posn_cons_eq. lia.
      * destruct (Hnew a) as [HaV Hal]; [by eapply list_elem_of_lookup_2|].
        rewrite (posn_cons_ne _ y a) by set_solver.
        pose proof (Hord i j a b Ha Hb ltac:(lia)). lia.
Qed.

Section shortest_path.

Context (g : Graph) (start end_ : Vertex).
Hypothesis Hwf : wf g.
Hypothesis Hstart : start ∈ vertices g.

(** The state of the [while] loop, with its history: [D] lists every vertex
    discovered so far with its path, in order of discovery; the first [k]
    have been dequeued, the others are the queue. *)
Record bfs_inv (D : list (Vertex * list Vertex)) (k : nat)
    (visited : gset Vertex) : Prop := BfsInv {
  bfs_visited : ∀ x, x ∈ visited ↔ x ∈ (D.*1);
  bfs_nodup : NoDup (D.*1);
  bfs_walk : ∀ v p, (v, p) ∈ D → walk_to g start p v;
  bfs_sorted : ∀ i j a b, D !! i = Some a → D !! j = Some b → (i ≤ j)%nat →
                          (length a.2 ≤ length b.2)%nat;
  bfs_front : ∀ h b, D !! k = Some h → b ∈ D →
                     (length b.2 ≤ length h.2 + 1)%nat;
  bfs_closed : ∀ i u p, (i < k)%nat → D !! i = Some (u, p) →
                        ∀ v, edge g u v →
                             ∃ q, (v, q) ∈ D ∧ (length q ≤ length p + 1)%nat;
  bfs_first : D !! 0%nat = Some (start, [start]);
  bfs_not_end : ∀ i u p, (i < k)%nat → D !! i = Some (u, p) → u ≠ end_;
  bfs_bound : (k ≤ length D)%nat
}.

Lemma bfs_inv_init : bfs_inv [(start, [start])] 0 {[start]}.
Proof.
  split; simpl.
  - intros x. rewrite elem_of_singleton, list_elem_of_singleton. done.
  - apply NoDup_singleton.
  - intros v p [= -> ->]%list_elem_of_singleton. constructor.
  - intros [|i] [|j] a b; simpl; try done. intros [= <-] [= <-] _. done.
  - intros h b [= <-] ->%list_elem_of_singleton. simpl. lia.
  - intros i u p Hi. lia.
  - done.
  - intros i u p Hi. lia.
  - lia.
Qed.

(** Every walk from [start] ends at a discovered vertex whose recorded path
    is no longer, or at an undiscovered vertex while some queued path is no
    longer. *)
Lemma bfs_inv_walk (D : list (Vertex * list Vertex)) (k : nat)
    (visited : gset Vertex) (q : list Vertex) (x : Vertex) :
  bfs_inv D k visited → walk_to g start q x →
  (∃ p, (x, p) ∈ D ∧ (length p ≤ length q)%nat)
  ∨ ((x ∉ (D.*1)) ∧ ∃ i z, (k ≤ i)%nat ∧ D !! i = Some z
                       ∧ (length z.2 ≤ length q)%nat).
Proof.
  intros Hinv Hq. induction Hq as [|q y x Hq IH Hyx].
  { left. exists [start]. split; [|done].
    eapply list_elem_of_lookup_2, (bfs_first _ _ _ Hinv). }
  assert (∀ i z, (k ≤ i)%nat → D !! i = Some z →
                 ∀ p, (x, p) ∈ D → (length p ≤ length z.2 + 1)%nat) as Hfront.
  { intros i z Hi Hz p Hp.
    destruct (lookup_lt_is_Some_2 D k) as [h Hh].
    { apply lookup_lt_Some in Hz. lia. }
    pose proof (bfs_front _ _ _ Hinv h (x, p) Hh Hp) as H1.
    pose proof (bfs_sorted _ _ _ Hinv k i h z Hh Hz Hi) as H2.
    simpl in *. lia. }
  rewrite length_app. simpl.
  destruct (decide (x ∈ (D.*1))) as [Hx|Hx].
  - left. apply list_elem_of_fmap in Hx as ([x' p] & -> & Hp). simpl.
    exists p. split; [done|].
    destruct IH as [(py & Hpy & Hle)|(_ & i & z & Hi & Hz & Hle)].
    + apply list_elem_of_lookup in Hpy as [i Hi].
      destruct (decide (i < k)%nat) as [Hlt|Hge].
      * destruct (bfs_closed _ _ _ Hinv i y py Hlt Hi x' Hyx) as (p' & Hp' & Hle').
        assert (p' = p) as ->.
        { by eapply (nodup_fst_functional D), Hp; [eapply bfs_nodup|]. }
        lia.
      * pose proof (Hfront i (y, py) ltac:(lia) Hi p Hp). simpl in *. lia.
    + pose proof (Hfront i z Hi Hz p Hp). lia.
  - right. split; [done|].
    destruct IH as [(py & Hpy & Hle)|(_ & i & z & Hi & Hz & Hle)].
    + apply list_elem_of_lookup in Hpy as [i Hi].
      destruct (decide (i < k)%nat) as [Hlt|Hge].
      * destruct (bfs_closed _ _ _ Hinv i y py Hlt Hi x Hyx) as (p' & Hp' & Hle').
        exfalso. apply Hx. apply list_elem_of_fmap. by exists (x, p').
      * exists i, (y, py). split_and!; [lia|done|simpl; lia].
    + exists i, z. split_and!; [done|done|lia].
Qed.

Lemma bfs_inv_step (D : list (Vertex * list Vertex)) (k : nat)
    (visited : gset Vertex) (u : Vertex) (pu : list Vertex) :
  bfs_inv D k visited → D !! k = Some (u, pu) → u ≠ end_ →
  ∃ new, foldl (BFS.enqueue_path pu) (visited, drop (S k) D) (neighbors_of g u)
         = (list_to_set (new.*1) ∪ visited, drop (S k) (D ++ new))
         ∧ bfs_inv (D ++ new) (S k) (list_to_set (new.*1) ∪ visited)
         ∧ (∀ x, x ∈ (new.*1) → (x ∉ visited) ∧ x ∈ ((neighbors_of g u).*1))
         ∧ (∀ v p, (v, p) ∈ new → p = pu ++ [v])
         ∧ (∀ i j a b, (new.*1) !! i = Some a → (new.*1) !! j = Some b →
                       (i < j)%nat → (position g u a < position g u b)%nat).
Proof.
  intros Hinv Hk Hne.
  destruct (enqueue_path_fold pu (neighbors_of g u) visited (drop (S k) D))
    as (new & Hfold & Hnd & Hnew & Hcov & Hpath & Hord).
  exists new. pose proof (lookup_lt_Some _ _ _ Hk) as Hklt.
  split. { rewrite Hfold. f_equal. rewrite drop_app_le; [done|lia]. }
  split; [|done].
  assert (∀ b, b ∈ D → (length b.2 ≤ length pu + 1)%nat) as Hold.
  { intros b Hb. apply (bfs_front _ _ _ Hinv (u, pu) b Hk Hb). }
  assert (∀ b, b ∈ new → length b.2 = (length pu + 1)%nat) as Hlen.
  { intros [v p] Hb. simpl. rewrite (Hpath v p Hb), length_app. simpl. lia. }
  assert (∀ i j a b, (D ++ new) !! i = Some a → (D ++ new) !! j = Some b →
                     (i ≤ j)%nat → (length a.2 ≤ length b.2)%nat) as Hsorted.
  { intros i j a b Ha Hb Hij.
    apply lookup_app_Some in Ha as [Ha|[Hia Ha]];
      apply lookup_app_Some in Hb as [Hb|[Hjb Hb]].
    - by eapply (bfs_sorted _ _ _ Hinv).
    - apply list_elem_of_lookup_2 in Ha, Hb.
      rewrite (Hlen b Hb). by apply Hold.
    - apply lookup_lt_Some in Hb. lia.
    - apply list_elem_of_lookup_2 in Ha, Hb. rewrite (Hlen a Ha), (Hlen b Hb). lia. }
  split.
  - intros x. rewrite fmap_app, elem_of_app, elem_of_union, elem_of_list_to_set.
    rewrite (bfs_visited _ _ _ Hinv). tauto.
  - rewrite fmap_app. apply NoDup_app. split_and!; [by eapply bfs_nodup| |done].
    intros x Hx Hx'. apply Hnew in Hx' as [Hx' _].
    by apply Hx', (bfs_visited _ _ _ Hinv).
  - intros v p [Hin|Hin]%elem_of_app; [by eapply bfs_walk|].
    rewrite (Hpath v p Hin). apply (walk_step g start pu u v).
    + eapply bfs_walk; [done|]. by eapply list_elem_of_lookup_2.
    + assert (v ∈ (new.*1)) as Hv.
      { apply list_elem_of_fmap. by exists (v, p). }
      apply Hnew in Hv as [_ Hv]. apply list_elem_of_fmap in Hv as ([v' w] & -> & Hv).
      by exists w.
  - done.
  - intros h b Hh Hb.
    assert ((D ++ new) !! k = Some (u, pu)) as Hk' by (by apply lookup_app_l_Some).
    pose proof (Hsorted k (S k) (u, pu) h Hk' Hh ltac:(lia)) as Hle. simpl in Hle.
    apply elem_of_app in Hb as [Hb|Hb].
    + pose proof (Hold b Hb). lia.
    + rewrite (Hlen b Hb). lia.
  - intros i u' p Hi Hlook v Hedge.
    assert (D !! i = Some (u', p)) as Hlook'.
    { rewrite lookup_app_l in Hlook; [done|lia]. }
    destruct (decide (i < k)%nat) as [Hlt|Hge].
    + destruct (bfs_closed _ _ _ Hinv i u' p Hlt Hlook' v Hedge) as (q & Hq & Hle).
      exists q. split; [|done]. apply elem_of_app. by left.
    + assert (i = k) as -> by lia. rewrite Hk in Hlook'.
      injection Hlook' as <- <-. destruct Hedge as [w Hw].
      assert (v ∈ ((neighbors_of g u).*1)) as Hv.
      { apply list_elem_of_fmap. by exists (v, w). }
      destruct (Hcov v Hv) as [Hvis|Hin].
      * apply (bfs_visited _ _ _ Hinv) in Hvis.
        apply list_elem_of_fmap in Hvis as ([v' q] & -> & Hq).
        exists q. split; [apply elem_of_app; by left|].
        pose proof (Hold _ Hq) as Hq'. simpl in Hq'. lia.
      * apply list_elem_of_fmap in Hin as ([v' q] & -> & Hq).
        exists q. split; [apply elem_of_app; by right|].
        pose proof (Hlen _ Hq) as Hq'. simpl in Hq'. lia.
  - rewrite lookup_app_l; [by eapply bfs_first|lia].
  - intros i u' p Hi Hlook.
    assert (D !! i = Some (u', p)) as Hlook'.
    { rewrite lookup_app_l in Hlook; [done|lia]. }
    destruct (decide (i < k)%nat) as [Hlt|Hge]; [by eapply bfs_not_end|].
    assert (i = k) as -> by lia. congruence.
  - rewrite length_app. lia.
Qed.

(** The part of the invariant that orders ties: every vertex with a walk no
    longer than the path at the head of the queue is discovered; among
    discovered paths of one length the earlier takes the smaller adjacency
    positions; each recorded path takes the smallest positions among the
    walks of its length to its vertex; and each recorded path extends the
    path of a dequeued vertex. *)
Record bfs_lex (D : list (Vertex * list Vertex)) (k : nat) : Prop := BfsLex {
  lex_level : ∀ h q x, D !! k = Some h → walk_to g start q x →
                       (length q ≤ length h.2)%nat → x ∈ (D.*1);
  lex_sorted : ∀ i j a b, D !! i = Some a → D !! j = Some b → (i < j)%nat →
                          length a.2 = length b.2 →
                          lex_lt (choices g a.2) (choices g b.2);
  lex_min : ∀ v p q, (v, p) ∈ D → walk_to g start q v → length q = length p →
                     lex_le (choices g p) (choices g q);
  lex_parent : ∀ j w pw, D !! j = Some (w, pw) →
                         pw = [start]
                         ∨ ∃ i z pz, (i < k)%nat ∧ D !! i = Some (z, pz)
                                     ∧ pw = pz ++ [w]
}.

Lemma walk_to_short (q : list Vertex) (x : Vertex) :
  walk_to g start q x → (length q ≤ 1)%nat → q = [start] ∧ x = start.
Proof.
  intros [[-> ->]|(q' & y & -> & Hq' & _)]%walk_to_inv Hlen; [done|].
  apply walk_to_length in Hq'. rewrite length_app in Hlen. simpl in Hlen. lia.
Qed.

Lemma bfs_lex_init : bfs_lex [(start, [start])] 0.
Proof.
  split.
  - intros h q x [= <-] Hq Hlen. simpl in Hlen.
    destruct (walk_to_short q x Hq Hlen) as [_ ->]. simpl. by left.
  - intros [|i] [|j] a b Ha Hb Hij; simpl in *; try done; lia.
  - intros v p q [= -> ->]%list_elem_of_singleton Hq Hlen. simpl in Hlen.
    destruct (walk_to_short q start Hq) as [-> _]; [lia|]. by left.
  - intros [|j] w pw; simpl; [|done]. intros [= <- <-]. by left.
Qed.

Lemma bfs_lex_step (D : list (Vertex * list Vertex)) (k : nat)
    (visited visited' : gset Vertex) (u : Vertex) (pu : list Vertex)
    (new : list (Vertex * list Vertex)) :
  bfs_inv D k visited → bfs_lex D k → D !! k = Some (u, pu) →
  bfs_inv (D ++ new) (S k) visited' →
  (∀ x, x ∈ (new.*1) → (x ∉ visited) ∧ x ∈ ((neighbors_of g u).*1)) →
  (∀ v p, (v, p) ∈ new → p = pu ++ [v]) →
  (∀ i j a b, (new.*1) !! i = Some a → (new.*1) !! j = Some b → (i < j)%nat →
              (position g u a < position g u b)%nat) →
  bfs_lex (D ++ new) (S k).
Proof.
  intros Hinv Hlex Hk Hinv' Hnew Hpath Hord.
  pose proof (lookup_lt_Some _ _ _ Hk) as Hklt.
  assert ((u, pu) ∈ D) as HuD by (by eapply list_elem_of_lookup_2).
  pose proof (bfs_walk _ _ _ Hinv u pu HuD) as Hpu.
  pose proof (walk_to_length _ _ _ _ Hpu) as Hpu1.
  pose proof (walk_to_last _ _ _ _ Hpu) as Hlast.
  assert ((D ++ new) !! k = Some (u, pu)) as Hk' by (by apply lookup_app_l_Some).
  assert (∀ b, b ∈ new → length b.2 = (length pu + 1)%nat) as Hlen.
  { intros [v p] Hb. simpl. rewrite (Hpath v p Hb), length_app. simpl. lia. }
  assert (∀ q y, walk_to g start q y → (length q ≤ length pu)%nat →
                 ∃ i py, D !! i = Some (y, py) ∧ (length py ≤ length q)%nat)
    as Hfound.
  { intros q y Hq Hle.
    pose proof (lex_level _ _ Hlex (u, pu) q y Hk Hq Hle) as Hy.
    destruct (bfs_inv_walk D k visited q y Hinv Hq)
      as [(py & [i Hi]%list_elem_of_lookup & Hpy)|[Hnot _]]; [|done].
    by exists i, py. }
  split.
  - intros h q x Hh Hq Hle.
    apply walk_to_inv in Hq as [[-> ->]|(q' & y & -> & Hq' & Hedge)].
    { apply list_elem_of_fmap. exists (start, [start]). split; [done|].
      eapply list_elem_of_lookup_2, (bfs_first _ _ _ Hinv'). }
    rewrite length_app in Hle. simpl in Hle.
    assert (length h.2 ≤ length pu + 1)%nat as Hh1.
    { apply list_elem_of_lookup_2, elem_of_app in Hh as [Hh|Hh].
      - apply (bfs_front _ _ _ Hinv (u, pu) h Hk Hh).
      - rewrite (Hlen h Hh). lia. }
    destruct (Hfound q' y Hq') as (i & py & Hi & Hpy); [lia|].
    assert ((D ++ new) !! i = Some (y, py)) as Hi' by (by apply lookup_app_l_Some).
    destruct (decide (i < S k)%nat) as [Hlt|Hge].
    + destruct (bfs_closed _ _ _ Hinv' i y py Hlt Hi' x Hedge) as (p & Hp & _).
      apply list_elem_of_fmap. by exists (x, p).
    + pose proof (bfs_sorted _ _ _ Hinv' (S k) i h (y, py) Hh Hi' ltac:(lia)).
      simpl in *. lia.
  - intros i j a b Ha Hb Hij Hlenab.
    apply lookup_app_Some in Ha as [Ha|[Hia Ha]];
      apply lookup_app_Some in Hb as [Hb|[Hjb Hb]].
    + by eapply (lex_sorted _ _ Hlex).
    + destruct a as [va pa]. destruct b as [vb pb].
      apply list_elem_of_lookup_2 in Hb.
      pose proof (Hlen _ Hb) as Hlb. pose proof (Hpath _ _ Hb) as ->.
      simpl in *.
      destruct (lex_parent _ _ Hlex i va pa Ha) as [->|(i' & z & pz & Hi' & Hz & ->)].
      { simpl in *. lia. }
      assert (walk_to g start pz z) as Hpz.
      { eapply (bfs_walk _ _ _ Hinv). by eapply list_elem_of_lookup_2. }
      rewrite (choices_snoc g pz z va (walk_to_last _ _ _ _ Hpz)).
      rewrite (choices_snoc g pu u vb Hlast).
      rewrite !length_app in Hlenab. simpl in Hlenab.
      apply lex_lt_app_l; [rewrite !length_choices; lia|].
      apply (lex_sorted _ _ Hlex i' k (z, pz) (u, pu) Hz Hk Hi'). simpl. lia.
    + apply lookup_lt_Some in Hb. lia.
    + destruct a as [va pa]. destruct b as [vb pb]. simpl.
      pose proof (Hpath _ _ (list_elem_of_lookup_2 _ _ _ Ha)) as ->.
      pose proof (Hpath _ _ (list_elem_of_lookup_2 _ _ _ Hb)) as ->.
      rewrite (choices_snoc g pu u va Hlast), (choices_snoc g pu u vb Hlast).
      apply lex_lt_app_r. simpl. left.
      apply (Hord (i - length D)%nat (j - length D)%nat).
      * by rewrite list_lookup_fmap, Ha.
      * by rewrite list_lookup_fmap, Hb.
      * lia.
  - intros v p q [Hin|Hin]%elem_of_app Hq Hlenq; [by eapply (lex_min _ _ Hlex)|].
    pose proof (Hpath v p Hin) as ->. rewrite length_app in Hlenq. simpl in Hlenq.
    apply walk_to_inv in Hq as [[-> ->]|(q' & y & -> & Hq' & Hedge)].
    { simpl in Hlenq. lia. }
    rewrite length_app in Hlenq. simpl in Hlenq.
    destruct (Hfound q' y Hq') as (i & py & Hi & Hpy); [lia|].
    assert (v ∉ (D.*1)) as HvD.
    { intros HvD%(bfs_visited _ _ _ Hinv). apply (Hnew v); [|done].
      apply list_elem_of_fmap. by exists (v, pu ++ [v]). }
    destruct (decide (i < k)%nat) as [Hlt|Hge].
    { destruct (bfs_closed _ _ _ Hinv i y py Hlt Hi v Hedge) as (p & Hp & _).
      exfalso. apply HvD. apply list_elem_of_fmap. by exists (v, p). }
    pose proof (bfs_sorted _ _ _ Hinv k i (u, pu) (y, py) Hk Hi ltac:(lia)) as Hs.
    simpl in Hs.
    assert (lex_le (choices g py) (choices g q')) as Hmin.
    { eapply (lex_min _ _ Hlex y py q'); [by eapply list_elem_of_lookup_2|done|lia]. }
    rewrite (choices_snoc g pu u v Hlast).
    rewrite (choices_snoc g q' y v (walk_to_last _ _ _ _ Hq')).
    destruct (decide (i = k)) as [->|Hne].
    + rewrite Hk in Hi. injection Hi as <- <-.
      apply lex_le_snoc; [rewrite !length_choices; lia|done].
    + right. apply lex_lt_app_l; [rewrite !length_choices; lia|].
      assert (lex_lt (choices g pu) (choices g py)) as Hlt.
      { apply (lex_sorted _ _ Hlex k i (u, pu) (y, py) Hk Hi); simpl; lia. }
      destruct Hmin as [<-|Hmin]; [done|by eapply lex_lt_trans].
  - intros j w pw Hj. apply lookup_app_Some in Hj as [Hj|[Hjl Hj]].
    + destruct (lex_parent _ _ Hlex j w pw Hj) as [->|(i & z & pz & Hi & Hz & ->)];
        [by left|right].
      exists i, z, pz. split_and!; [lia|by apply lookup_app_l_Some|done].
    + right. exists k, u, pu. split_and!; [lia|done|].
      eapply Hpath. by eapply list_elem_of_lookup_2.
Qed.

Lemma bfs_inv_length (D : list (Vertex * list Vertex)) (k : nat)
    (visited : gset Vertex) :
  bfs_inv D k visited → (length D ≤ length (vertices g))%nat.
Proof.
  intros Hinv. rewrite <- (length_fmap fst D).
  apply submseteq_length, NoDup_submseteq; [by eapply bfs_nodup|].
  intros x ([x' p] & -> & Hp)%list_elem_of_fmap.
  eapply walk_to_vertices; [done..|]. by eapply bfs_walk.
Qed.

(** The loop, run with enough fuel from a state that satisfies the
    invariant, returns: no path when [end_] cannot be reached, a shortest
    walk otherwise. *)
Lemma shortest_path_loop_correct (fuel : nat) (D : list (Vertex * list Vertex))
    (k : nat) (visited : gset Vertex) :
  bfs_inv D k visited → bfs_lex D k →
  (length (vertices g) + 1 ≤ k + fuel)%nat →
  ∃ r, BFS.shortest_path_loop fuel g end_ visited (drop k D) = Ok r
       ∧ match r with
         | None => ¬ ∃ q, walk_to g start q end_
         | Some p => walk_to g start p end_
                     ∧ (∀ q, walk_to g start q end_ →
                             (length p ≤ length q)%nat)
                     ∧ ∀ q, walk_to g start q end_ → length q = length p →
                            lex_le (choices g p) (choices g q)
         end.
Proof.
  revert D k visited.
  induction fuel as [|fuel IH]; intros D k visited Hinv Hlex Hfuel.
  { pose proof (bfs_inv_length _ _ _ Hinv). pose proof (bfs_bound _ _ _ Hinv). lia. }
  simpl. destruct (drop k D) as [|[u pu] rest] eqn:Hdrop.
  - exists None. split; [done|]. intros [q Hq].
    assert (length D ≤ k)%nat as Hk.
    { destruct (decide (length D ≤ k)%nat); [done|].
      apply (f_equal length) in Hdrop. rewrite length_drop in Hdrop. simpl in *. lia. }
    destruct (bfs_inv_walk D k visited q end_ Hinv Hq)
      as [(p & Hp & _)|(_ & i & z & Hi & Hz & _)].
    + apply list_elem_of_lookup in Hp as [i Hi].
      pose proof (lookup_lt_Some _ _ _ Hi).
      by apply (bfs_not_end _ _ _ Hinv i end_ p ltac:(lia) Hi).
    + apply lookup_lt_Some in Hz. lia.
  - assert (D !! k = Some (u, pu)) as Hk.
    { rewrite <- (Nat.add_0_r k), <- lookup_drop, Hdrop. done. }
    assert (rest = drop (S k) D) as ->.
    { rewrite (drop_S _ _ _ Hk) in Hdrop. by inversion Hdrop. }
    case_decide as Hend.
    + subst u. exists (Some pu). split; [done|].
      assert ((end_, pu) ∈ D) as Hin by (by eapply list_elem_of_lookup_2).
      split; [by eapply bfs_walk|]. split.
      * intros q Hq.
        destruct (bfs_inv_walk D k visited q end_ Hinv Hq)
          as [(p & Hp & Hle)|(Hnot & _)].
        -- assert (p = pu) as ->; [|done].
           eapply (nodup_fst_functional D); [by eapply bfs_nodup|done..].
        -- exfalso. apply Hnot. apply list_elem_of_fmap. by exists (end_, pu).
      * intros q Hq Hlen. by eapply (lex_min _ _ Hlex).
    + assert (u ∈ vertices g) as Hu.
      { eapply walk_to_vertices; [done..|]. eapply bfs_walk; [done|].
        by eapply list_elem_of_lookup_2. }
      rewrite (wf_get_neighbors g u Hwf Hu). simpl.
      destruct (bfs_inv_step D k visited u pu Hinv Hk Hend)
        as (new & -> & Hinv' & Hnew & Hpath & Hord).
      apply IH; [done| |lia]. by eapply bfs_lex_step.
Qed.

End shortest_path.

(** C3: on a built graph [BFS.shortest_path] always returns (it neither
    raises nor runs out of fuel); it returns [None] exactly when an endpoint
    is not a vertex of the graph or no walk leads from [start] to [end_]; and a
    returned path is a walk from [start] to [end_] that no other such walk
    undercuts in length, and that among the walks of its own length takes the
    lexicographically smallest sequence of adjacency-list positions. *)
Theorem shortest_path_correct (g : Graph) (start end_ : Vertex) :
  built g →
  (∃ r, BFS.shortest_path g start end_ = Ok r)
  ∧ (BFS.shortest_path g start end_ = Ok None
     ↔ start ∉ vertices g ∨ end_ ∉ vertices g
       ∨ ¬ ∃ q, walk_to g start q end_)
  ∧ (∀ p, BFS.shortest_path g start end_ = Ok (Some p) →
          walk_to g start p end_
          ∧ (∀ q, walk_to g start q end_ → (length p ≤ length q)%nat)
          ∧ ∀ q, walk_to g start q end_ → length q = length p →
                 lex_le (choices g p) (choices g q)).
Proof.
  intros Hwf%built_wf. unfold BFS.shortest_path. case_decide as Habs.
  - split; [by eexists|]. split; [|done]. split; [|done]. intros _.
    destruct Habs as [?|?]; [by left|right; by left].
  - assert (start ∈ vertices g ∧ end_ ∈ vertices g) as [Hs He].
    { split; apply dec_stable; tauto. }
    destruct (shortest_path_loop_correct g start end_ Hwf Hs
                (S (length (vertices g))) [(start, [start])] 0 {[start]})
      as ([p|] & Hr & Hspec); [apply bfs_inv_init|apply bfs_lex_init|lia| |].
    + simpl drop in Hr. rewrite Hr. split; [by eexists|]. split.
      * split; [done|]. intros [?|[?|Hno]]; [done..|].
        exfalso. apply Hno. exists p. apply Hspec.
      * by intros p' [= <-].
    + simpl drop in Hr. rewrite Hr. split; [by eexists|]. split; [|done].
      split; [|done]. intros _. right. by right.
Qed.

Lemma shortest_path_correct_witness :
  BFS.shortest_path diamond_example "A" "D" = Ok (Some ["A"; "B"; "D"])
  ∧ (∀ q, walk_to diamond_example "A" q "D" → (3 ≤ length q)%nat)
  ∧ ∀ q, walk_to diamond_example "A" q "D" → length q = 3%nat →
         lex_le [0; 1]%nat (choices diamond_example q).
Proof.
  destruct (shortest_path_correct diamond_example "A" "D") as (_ & _ & H).
  { apply build_built. }
  split; [by vm_compute|].
  apply (H ["A"; "B"; "D"]). by vm_compute.
Defined.

(** ** Topological orders and cycles *)

Lemma before_trans (l : list Vertex) (u v w : Vertex) :
  NoDup l → before l u v → before l v w → before l u w.
Proof.
  intros Hnd (i & j & Hi & Hj & Hij) (j' & k & Hj' & Hk & Hjk).
  assert (j = j') as <- by (by eapply NoDup_lookup).
  exists i, k. split_and!; [done..|lia].
Qed.

Lemma before_irrefl (l : list Vertex) (v : Vertex) : NoDup l → ¬ before l v v.
Proof.
  intros Hnd (i & j & Hi & Hj & Hij).
  assert (i = j) by (by eapply NoDup_lookup). lia.
Qed.

Lemma topological_order_acyclic (g : Graph) (l : list Vertex) :
  topological_order g l → acyclic g.
Proof.
  intros (Hnd & _ & Hord) v Hcyc.
  assert (∀ a b, tc (edge g) a b → before l a b) as Htc.
  { intros a b Hab. induction Hab as [a b Hab|a b c Hab _ IH].
    - by apply Hord.
    - eapply before_trans; [done|by apply Hord|done]. }
  by eapply before_irrefl, Htc.
Qed.

Lemma edge_source (g : Graph) (u v : Vertex) :
  wf g → edge g u v → u ∈ vertices g.
Proof.
  intros Hwf [w Hw]. destruct (decide (u ∈ vertices g)) as [|Hn]; [done|].
  rewrite (wf_neighbors_absent g u Hwf Hn) in Hw. by apply elem_of_nil in Hw.
Qed.

Lemma edge_target (g : Graph) (u v : Vertex) :
  wf g → edge g u v → v ∈ vertices g.
Proof. intros Hwf [w Hw]. by eapply wf_closed. Qed.

Lemma edge_elem (g : Graph) (u v : Vertex) :
  edge g u v ↔ v ∈ ((neighbors_of g u).*1).
Proof.
  unfold edge. rewrite list_elem_of_fmap. split.
  - intros [w Hw]. by exists (v, w).
  - intros ([v' w] & -> & Hw). by exists w.
Qed.

(** *** A finite set in which every element has a predecessor holds a cycle *)

Section chains.

Context {A : Type} `{EqDecision A} (R : relation A).

(** Consecutive elements of the list are related. *)
Fixpoint chain (c : list A) : Prop :=
  match c with
  | a :: (b :: _) as c' => R a b ∧ chain c'
  | _ => True
  end.

Lemma chain_tc (c : list A) (i j : nat) (a b : A) :
  chain c → c !! i = Some a → c !! j = Some b → (i < j)%nat → tc R a b.
Proof.
  revert i j a. induction c as [|x c IH]; intros i j a Hc Hi Hj Hij; [done|].
  destruct j as [|j]; [lia|]. simpl in Hj.
  destruct c as [|y c]; [done|]. destruct Hc as [Hxy Hc].
  destruct i as [|i]; simpl in Hi.
  - injection Hi as ->. destruct j as [|j]; simpl in Hj.
    + injection Hj as ->. by apply tc_once.
    + eapply tc_l; [done|]. apply (IH 0%nat (S j)); [done..|lia].
  - apply (IH i j); [done..|lia].
Qed.

Lemma not_NoDup_repeat (l : list A) :
  ¬ NoDup l → ∃ i j x, (i < j)%nat ∧ l !! i = Some x ∧ l !! j = Some x.
Proof.
  induction l as [|a l IH]; intros Hnd.
  { exfalso. apply Hnd. constructor. }
  destruct (decide (a ∈ l)) as [Hin|Hin].
  - apply list_elem_of_lookup in Hin as [j Hj].
    exists 0%nat, (S j), a. split_and!; [lia|done..].
  - destruct IH as (i & j & x & Hij & Hi & Hj).
    { intros Hl. apply Hnd. by constructor. }
    exists (S i), (S j), x. split_and!; [lia|done..].
Qed.

Lemma predecessors_cycle (S : list A) :
  S ≠ [] → (∀ v, v ∈ S → ∃ u, u ∈ S ∧ R u v) → ∃ v, tc R v v.
Proof.
  intros Hne Hpred.
  assert (∀ n, ∃ c, length c = Datatypes.S n ∧ chain c ∧ ∀ x, x ∈ c → x ∈ S)
    as Hchain.
  { induction n as [|n (c & Hlen & Hc & Hsub)].
    - destruct S as [|a S']; [done|]. exists [a]. split_and!; [done..|].
      intros x ->%list_elem_of_singleton. by left.
    - destruct c as [|v c]; [done|].
      destruct (Hpred v) as (u & Hu & Huv); [apply Hsub; by left|].
      exists (u :: v :: c). split_and!.
      + simpl in *. lia.
      + by split.
      + intros x [->|Hx]%elem_of_cons; [done|by apply Hsub]. }
  destruct (Hchain (length S)) as (c & Hlen & Hc & Hsub).
  destruct (not_NoDup_repeat c) as (i & j & x & Hij & Hi & Hj).
  { intros Hnd. pose proof (submseteq_length c S (NoDup_submseteq c S Hnd Hsub)).
    lia. }
  exists x. apply (chain_tc c i j x x Hc Hi Hj Hij).
Qed.

End chains.

(** ** [TopologicalSort.kahn_algorithm] *)

Lemma count_cons_eq (v : Vertex) (l : list Vertex) :
  count v (v :: l) = S (count v l).
Proof. simpl. by rewrite decide_True. Qed.

Lemma count_cons_ne (v x : Vertex) (l : list Vertex) :
  x ≠ v → count v (x :: l) = count v l.
Proof. intros Hne. simpl. by rewrite decide_False. Qed.

Lemma count_zero (v : Vertex) (l : list Vertex) : count v l = 0%nat ↔ v ∉ l.
Proof.
  induction l as [|x l IH]; simpl.
  - split; [intros _ ?%elem_of_nil; done|done].
  - rewrite not_elem_of_cons. case_decide; [|rewrite IH]; naive_solver lia.
Qed.

Lemma in_count_zero (g : Graph) (v : Vertex) (us : list Vertex) :
  in_count g v us = 0%nat ↔ ∀ u, u ∈ us → ¬ edge g u v.
Proof.
  induction us as [|u us IH]; simpl.
  - split; [intros _ u ?%elem_of_nil; done|done].
  - rewrite Nat.eq_add_0, IH, count_zero, <- edge_elem. split.
    + intros [Hu Hus] x [->|Hx]%elem_of_cons; [done|by apply Hus].
    + intros H. split; [apply H; by left|]. intros x Hx. apply H. by right.
Qed.

Lemma in_count_elem (g : Graph) (v u : Vertex) (us : list Vertex) :
  u ∈ us → (count v ((neighbors_of g u).*1) ≤ in_count g v us)%nat.
Proof.
  induction us as [|x us IH]; [by intros ?%elem_of_nil|].
  intros [->|Hu]%elem_of_cons; simpl; [lia|]. specialize (IH Hu). lia.
Qed.

(** [in_degree[x] += delta] for every [x] of a list. *)
Lemma bump_all (delta : Z) (l : list (Vertex * Z)) (d : gmap Vertex Z) :
  (∀ x, x ∈ (l.*1) → is_Some (d !! x)) →
  ∃ d', for_each (fun (entry : Vertex * Z) d =>
                    TopologicalSort.bump delta d entry.1) l d = Ok d'
        ∧ ∀ v, d' !! v
               = (fun z => (z + delta * Z.of_nat (count v (l.*1)))%Z) <$> d !! v.
Proof.
  revert d. induction l as [|[x w] l IH]; intros d Hdom.
  { exists d. split; [done|]. intros v. simpl.
    destruct (d !! v); simpl; [f_equal; lia|done]. }
  cbn [for_each]. unfold TopologicalSort.bump at 1, getitem. cbn [fst].
  destruct (Hdom x) as [z Hz]; [by left|]. rewrite Hz. cbn [bind].
  destruct (IH (<[x := (z + delta)%Z]> d)) as (d' & -> & Hd').
  { intros y Hy. destruct (decide (x = y)) as [->|Hne].
    - rewrite lookup_insert_eq. by eexists.
    - rewrite lookup_insert_ne; [|done]. apply Hdom. by right. }
  exists d'. split; [done|]. intros v. rewrite Hd', fmap_cons. cbn [fst].
  destruct (decide (x = v)) as [->|Hne].
  - rewrite lookup_insert_eq, Hz, count_cons_eq. simpl. f_equal. lia.
  - rewrite lookup_insert_ne, count_cons_ne by done. done.
Qed.

Section kahn.

Context (g : Graph).
Hypothesis Hwf : wf g.
Hypothesis Hnodup : NoDup (vertices g).

Lemma neighbors_in_vertices (u x : Vertex) :
  x ∈ ((neighbors_of g u).*1) → x ∈ vertices g.
Proof. intros Hx%edge_elem. by eapply edge_target. Qed.

(** The first loop leaves, for each vertex, the number of adjacency entries
    that name it. *)
Lemma count_in_degrees_spec :
  ∃ d, TopologicalSort.count_in_degrees g = Ok d
       ∧ ∀ v, d !! v = if decide (v ∈ vertices g)
                       then Some (Z.of_nat (in_count g v (vertices g)))
                       else None.
Proof.
  unfold TopologicalSort.count_in_degrees.
  set (body := fun (vertex : Vertex) (in_degree : gmap Vertex Z) => bind _ _).
  assert (∀ us d, (∀ u, u ∈ us → u ∈ vertices g) →
                  (∀ x, is_Some (d !! x) ↔ x ∈ vertices g) →
                  ∃ d', for_each body us d = Ok d'
                        ∧ ∀ v, d' !! v
                               = (fun z => (z + Z.of_nat (in_count g v us))%Z)
                                 <$> d !! v) as Hloop.
  { induction us as [|u us IH]; intros d Hsub Hdom.
    { exists d. split; [done|]. intros v. simpl.
      destruct (d !! v); simpl; [f_equal; lia|done]. }
    cbn [for_each]. unfold body at 1.
    rewrite (wf_get_neighbors g u Hwf) by (apply Hsub; by left). cbn [bind].
    destruct (bump_all 1 (neighbors_of g u) d) as (d1 & -> & Hd1).
    { intros x Hx. apply Hdom. by eapply neighbors_in_vertices. }
    cbn [bind]. destruct (IH d1) as (d' & -> & Hd').
    { intros x Hx. apply Hsub. by right. }
    { intros x. rewrite Hd1, <- Hdom. by rewrite fmap_is_Some. }
    exists d'. split; [done|]. intros v. rewrite Hd', Hd1. cbn [in_count].
    destruct (d !! v); simpl; [f_equal; lia|done]. }
  assert (∀ v, (list_to_map ((fun v => (v, 0%Z)) <$> vertices g)
                : gmap Vertex Z) !! v
               = if decide (v ∈ vertices g) then Some 0%Z else None) as Hinit.
  { intros v. case_decide as Hv.
    - destruct (list_to_map _ !! v) as [z|] eqn:Hl.
      + apply elem_of_list_to_map_2 in Hl.
        apply list_elem_of_fmap in Hl as (y & Heq & _). by inversion Heq.
      + apply not_elem_of_list_to_map_2 in Hl. exfalso. apply Hl.
        rewrite <- list_fmap_compose. simpl. by rewrite list_fmap_id.
    - apply not_elem_of_list_to_map_1.
      rewrite <- list_fmap_compose. simpl. by rewrite list_fmap_id. }
  destruct (Hloop (vertices g) (list_to_map ((fun v => (v, 0%Z)) <$> vertices g)))
    as (d & Hd & Hspec); [done| |].
  { intros x. rewrite Hinit. case_decide; [by split; [|eexists]|].
    split; [by intros [? ?]|done]. }
  exists d. split; [done|]. intros v. rewrite Hspec, Hinit.
  case_decide; simpl; [f_equal; lia|done].
Qed.

(** The list comprehension that seeds the queue. *)
Lemma zero_in_degree_spec (d : gmap Vertex Z) (vs : list Vertex) :
  (∀ v, v ∈ vs → is_Some (d !! v)) →
  TopologicalSort.zero_in_degree d vs
  = Ok (filter (fun v => d !! v = Some 0%Z) vs).
Proof.
  unfold TopologicalSort.zero_in_degree.
  set (body := fun (v : Vertex) (queue : list Vertex) => bind _ _).
  assert (∀ q, (∀ v, v ∈ vs → is_Some (d !! v)) →
               for_each body vs q
               = Ok (q ++ filter (fun v => d !! v = Some 0%Z) vs)) as Hloop.
  { induction vs as [|v vs IH]; intros q Hdom.
    { simpl. by rewrite app_nil_r. }
    cbn [for_each]. unfold body at 1, getitem.
    destruct (Hdom v) as [z Hz]; [by left|]. rewrite Hz. cbn [bind].
    rewrite IH by (intros x Hx; apply Hdom; by right).
    f_equal. rewrite filter_cons. case_decide as Hz0.
    - subst z. rewrite decide_True by done. by rewrite <- app_assoc.
    - rewrite decide_False by congruence. done. }
  intros Hdom. by rewrite Hloop.
Qed.

(** The [for] loop of the [while] body: every entry lowers the in-degree of
    its neighbour by one, and a neighbour joins the queue at the entry that
    brings it to zero.  When no in-degree is smaller than the number of
    entries for it, the neighbours that join are those that end at zero, each
    once. *)
Lemma release_fold (l : list (Vertex * Z)) (d : gmap Vertex Z)
    (Q : list Vertex) :
  (∀ x, x ∈ (l.*1) → ∃ z, d !! x = Some z ∧ (Z.of_nat (count x (l.*1)) ≤ z)%Z) →
  ∃ d' new, for_each TopologicalSort.release l (d, Q) = Ok (d', Q ++ new)
            ∧ (∀ v, d' !! v
                    = (fun z => (z - Z.of_nat (count v (l.*1)))%Z) <$> d !! v)
            ∧ NoDup new
            ∧ ∀ x, x ∈ new ↔ x ∈ (l.*1) ∧ d' !! x = Some 0%Z.
Proof.
  revert d Q. induction l as [|[y w] l IH]; intros d Q Hpre.
  { exists d, []. split_and!.
    - simpl. by rewrite app_nil_r.
    - intros v. simpl. destruct (d !! v); simpl; [f_equal; lia|done].
    - constructor.
    - intros x. simpl. rewrite elem_of_nil. naive_solver. }
  cbn [for_each]. unfold TopologicalSort.release at 1.
  unfold TopologicalSort.bump, getitem. cbn [fst snd].
  destruct (Hpre y) as (z & Hz & Hzle); [by left|].
  rewrite fmap_cons in Hzle. cbn [fst] in Hzle. rewrite count_cons_eq in Hzle.
  rewrite Hz. cbn [bind]. rewrite lookup_insert_eq. cbn [bind].
  set (d1 := <[y := (z + -1)%Z]> d).
  set (Q1 := if decide ((z + -1)%Z = 0%Z) then Q ++ [y] else Q).
  destruct (IH d1 Q1) as (d' & new & -> & Hd' & Hnd & Hnew).
  { intros x Hx. unfold d1. destruct (decide (y = x)) as [->|Hne].
    - rewrite lookup_insert_eq. eexists. split; [done|]. lia.
    - rewrite lookup_insert_ne by done.
      destruct (Hpre x) as (zx & Hzx & Hle); [by right|].
      rewrite fmap_cons in Hle. cbn [fst] in Hle.
      rewrite count_cons_ne in Hle by done. by exists zx. }
  assert (∀ v, d' !! v
               = (fun z => (z - Z.of_nat (count v (((y, w) :: l).*1)))%Z)
                 <$> d !! v) as Hd.
  { intros v. rewrite Hd', fmap_cons. cbn [fst]. unfold d1.
    destruct (decide (y = v)) as [->|Hne].
    - rewrite lookup_insert_eq, Hz, count_cons_eq. simpl. f_equal. lia.
    - rewrite lookup_insert_ne, count_cons_ne by done. done. }
  assert (d' !! y = Some (z - 1 - Z.of_nat (count y (l.*1)))%Z) as Hy.
  { rewrite Hd'. unfold d1. rewrite lookup_insert_eq. simpl. f_equal; lia. }
  exists d'. unfold Q1. case_decide as Hz1.
  - exists (y :: new). split_and!.
    + by rewrite <- app_assoc.
    + done.
    + constructor; [|done]. intros [Hin _]%Hnew.
      assert (y ∉ (l.*1)) by (apply count_zero; lia). done.
    + intros x. rewrite elem_of_cons, Hnew, fmap_cons, elem_of_cons. cbn [fst].
      split; [|naive_solver].
      intros [->|[? ?]]; [|by auto]. split; [by left|].
      rewrite Hy. f_equal. lia.
  - exists new. split_and!; try done.
    intros x. rewrite Hnew, fmap_cons, elem_of_cons. cbn [fst].
    split; [naive_solver|]. intros [[->|Hx] Hzero]; [|done].
    split; [|done]. rewrite Hy in Hzero.
    apply dec_stable. intros Hnot%count_zero. injection Hzero as Hzero. lia.
Qed.

(** The vertices not yet taken from the queue. *)
Definition remaining (res : list Vertex) : list Vertex :=
  filter (fun u => u ∉ res) (vertices g).

Lemma in_count_pos (v : Vertex) (us : list Vertex) :
  in_count g v us ≠ 0%nat → ∃ u, u ∈ us ∧ edge g u v.
Proof.
  induction us as [|u us IH]; [done|]. cbn [in_count]. intros Hne.
  destruct (decide (v ∈ ((neighbors_of g u).*1))) as [Hin|Hin].
  - exists u. split; [by left|by apply edge_elem].
  - apply count_zero in Hin. destruct IH as (x & Hx & Hedge); [lia|].
    exists x. split; [by right|done].
Qed.

Lemma in_count_filter (v u : Vertex) (res vs : list Vertex) :
  NoDup vs → u ∉ res →
  in_count g v (filter (fun x => x ∉ res) vs)
  = ((if decide (u ∈ vs) then count v ((neighbors_of g u).*1) else 0)
     + in_count g v (filter (fun x => x ∉ res ++ [u]) vs))%nat.
Proof.
  intros Hnd Hu. induction vs as [|x vs IH].
  { rewrite decide_False by (by intros ?%elem_of_nil). done. }
  apply NoDup_cons in Hnd as [Hx Hnd]. specialize (IH Hnd).
  rewrite !filter_cons.
  destruct (decide (x = u)) as [->|Hne].
  - rewrite decide_True by done.
    rewrite (decide_False (P := u ∉ res ++ [u])) by set_solver.
    rewrite (decide_True (P := u ∈ u :: vs)) by (by left).
    cbn [in_count]. rewrite IH, decide_False by done. lia.
  - destruct (decide (x ∈ res)) as [Hr|Hr].
    + rewrite decide_False by (by intros H; apply H).
      rewrite (decide_False (P := x ∉ res ++ [u])) by set_solver.
      rewrite IH. repeat case_decide; set_solver by lia.
    + rewrite decide_True by done.
      rewrite (decide_True (P := x ∉ res ++ [u])) by set_solver.
      cbn [in_count]. rewrite IH. repeat case_decide; set_solver by lia.
Qed.

(** The state of the [while] loop, with its history: [D] is the result
    followed by the queue, the first [k] elements being the result. *)
Record kahn_inv (d : gmap Vertex Z) (D : list Vertex) (k : nat) : Prop :=
  KahnInv {
  kahn_nodup : NoDup D;
  kahn_sub : ∀ x, x ∈ D → x ∈ vertices g;
  kahn_bound : (k ≤ length D)%nat;
  kahn_degree : ∀ v, d !! v
                     = if decide (v ∈ vertices g)
                       then Some (Z.of_nat (in_count g v (remaining (take k D))))
                       else None;
  kahn_zero : ∀ v, v ∈ D ↔ d !! v = Some 0%Z;
  kahn_order : ∀ i v, D !! i = Some v → ∀ u, edge g u v →
                      ∃ j, (j < i)%nat ∧ (j < k)%nat ∧ D !! j = Some u
}.

Lemma remaining_nil : remaining [] = vertices g.
Proof.
  unfold remaining. clear Hnodup. induction (vertices g) as [|x l IH]; [done|].
  rewrite filter_cons, decide_True by (by intros ?%elem_of_nil). by rewrite IH.
Qed.

Lemma kahn_inv_init (d : gmap Vertex Z) :
  (∀ v, d !! v = if decide (v ∈ vertices g)
                 then Some (Z.of_nat (in_count g v (vertices g))) else None) →
  kahn_inv d (filter (fun v => d !! v = Some 0%Z) (vertices g)) 0.
Proof.
  intros Hd. split.
  - by apply NoDup_filter.
  - by intros x [_ Hx]%list_elem_of_filter.
  - lia.
  - intros v. by rewrite take_0, remaining_nil.
  - intros v. rewrite list_elem_of_filter. split; [by intros [? _]|].
    intros Hv. split; [done|]. rewrite Hd in Hv. by case_decide.
  - intros i v Hi u Hedge. exfalso.
    apply list_elem_of_lookup_2, list_elem_of_filter in Hi as [Hzero Hv].
    rewrite Hd, decide_True in Hzero by done. injection Hzero as Hzero.
    assert (in_count g v (vertices g) = 0%nat) as Hc by lia.
    eapply in_count_zero; [done| |done]. by eapply edge_source.
Qed.

Lemma kahn_inv_step (d : gmap Vertex Z) (D : list Vertex) (k : nat)
    (u : Vertex) :
  kahn_inv d D k → D !! k = Some u →
  ∃ d' new, for_each TopologicalSort.release (neighbors_of g u)
              (d, drop (S k) D) = Ok (d', drop (S k) (D ++ new))
            ∧ kahn_inv d' (D ++ new) (S k).
Proof.
  intros Hinv Hk. pose proof (lookup_lt_Some _ _ _ Hk) as Hklt.
  assert (u ∈ vertices g) as Hu.
  { eapply kahn_sub; [done|]. by eapply list_elem_of_lookup_2. }
  assert (u ∉ take k D) as Hures.
  { intros [j Hj]%list_elem_of_lookup.
    pose proof (lookup_lt_Some _ _ _ Hj) as Hjl. rewrite length_take in Hjl.
    rewrite lookup_take_lt in Hj by lia.
    assert (j = k) by (by eapply NoDup_lookup, Hk; [eapply kahn_nodup|]). lia. }
  assert (take (S k) D = take k D ++ [u]) as Htake by (by apply take_S_r).
  assert (∀ v, in_count g v (remaining (take k D))
               = (count v ((neighbors_of g u).*1)
                  + in_count g v (remaining (take (S k) D)))%nat) as Hsplit.
  { intros v. unfold remaining.
    rewrite (in_count_filter v u (take k D) (vertices g) Hnodup Hures).
    by rewrite decide_True, Htake by done. }
  destruct (release_fold (neighbors_of g u) d (drop (S k) D))
    as (d' & new & Hfold & Hd' & Hnd & Hnew).
  { intros x Hx. rewrite (kahn_degree _ _ _ Hinv).
    rewrite decide_True by (by eapply neighbors_in_vertices).
    eexists. split; [done|]. rewrite Hsplit. lia. }
  assert (∀ v, d' !! v
               = if decide (v ∈ vertices g)
                 then Some (Z.of_nat (in_count g v (remaining (take (S k) D))))
                 else None) as Hdeg.
  { intros v. rewrite Hd', (kahn_degree _ _ _ Hinv). case_decide; [|done].
    simpl. f_equal. rewrite Hsplit. lia. }
  exists d', new. split.
  { rewrite Hfold. do 2 f_equal. rewrite drop_app_le; [done|lia]. }
  assert (∀ x, x ∈ D → x ∉ ((neighbors_of g u).*1)) as Hfresh.
  { intros x Hx. apply (kahn_zero _ _ _ Hinv) in Hx.
    rewrite (kahn_degree _ _ _ Hinv) in Hx. case_decide; [|done].
    injection Hx as Hx. rewrite Hsplit in Hx. apply count_zero. lia. }
  split.
  - apply NoDup_app. split_and!; [by eapply kahn_nodup| |done].
    intros x Hx [Hin _]%Hnew. by eapply Hfresh.
  - intros x [Hx|Hx]%elem_of_app; [by eapply kahn_sub|].
    apply Hnew in Hx as [Hx _]. by eapply neighbors_in_vertices.
  - rewrite length_app. lia.
  - intros v. rewrite take_app_le by lia. apply Hdeg.
  - intros v. rewrite elem_of_app. split.
    + intros [Hv|Hv]; [|by apply Hnew].
      pose proof (Hfresh v Hv) as Hc%count_zero.
      apply (kahn_zero _ _ _ Hinv) in Hv. rewrite Hd', Hv. simpl. f_equal. lia.
    + intros Hv. destruct (decide (v ∈ ((neighbors_of g u).*1))) as [Hin|Hin].
      * right. by apply Hnew.
      * left. apply (kahn_zero _ _ _ Hinv). rewrite Hd' in Hv.
        apply count_zero in Hin. rewrite Hin in Hv.
        destruct (d !! v) as [z|]; [|done]. simpl in Hv. f_equal.
        injection Hv as Hv. lia.
  - intros i v Hi x Hedge.
    apply lookup_app_Some in Hi as [Hi|[Hil Hi]].
    + destruct (kahn_order _ _ _ Hinv i v Hi x Hedge) as (j & Hji & Hjk & Hj).
      exists j. split_and!; [lia..|]. by apply lookup_app_l_Some.
    + assert (d' !! v = Some 0%Z) as Hzero.
      { apply list_elem_of_lookup_2, Hnew in Hi. by destruct Hi. }
      rewrite Hdeg in Hzero. case_decide; [|done]. injection Hzero as Hzero.
      assert (x ∈ take (S k) D) as [j Hj]%list_elem_of_lookup.
      { apply dec_stable. intros Hx.
        eapply (in_count_zero g v (remaining (take (S k) D))); [lia| |done].
        apply list_elem_of_filter. split; [done|by eapply edge_source]. }
      pose proof (lookup_lt_Some _ _ _ Hj) as Hjl. rewrite length_take in Hjl.
      rewrite lookup_take_lt in Hj by lia.
      exists j. split_and!; [lia..|]. by apply lookup_app_l_Some.
Qed.

Lemma kahn_inv_length (d : gmap Vertex Z) (D : list Vertex) (k : nat) :
  kahn_inv d D k → (length D ≤ length (vertices g))%nat.
Proof.
  intros Hinv. apply submseteq_length, NoDup_submseteq; [by eapply kahn_nodup|].
  intros x Hx. by eapply kahn_sub.
Qed.

Lemma kahn_loop_spec (fuel : nat) (d : gmap Vertex Z) (D : list Vertex)
    (k : nat) :
  kahn_inv d D k → (length (vertices g) + 1 ≤ k + fuel)%nat →
  ∃ d' D', TopologicalSort.kahn_loop fuel g d (drop k D) (take k D) = Ok D'
           ∧ kahn_inv d' D' (length D').
Proof.
  revert d D k. induction fuel as [|fuel IH]; intros d D k Hinv Hfuel.
  { pose proof (kahn_inv_length _ _ _ Hinv). pose proof (kahn_bound _ _ _ Hinv).
    lia. }
  simpl. destruct (drop k D) as [|u rest] eqn:Hdrop.
  - assert (k = length D) as ->.
    { pose proof (kahn_bound _ _ _ Hinv).
      apply (f_equal length) in Hdrop. rewrite length_drop in Hdrop.
      simpl in Hdrop. lia. }
    exists d, D. by rewrite firstn_all.
  - assert (D !! k = Some u) as Hk.
    { rewrite <- (Nat.add_0_r k), <- lookup_drop, Hdrop. done. }
    assert (rest = drop (S k) D) as ->.
    { rewrite (drop_S _ _ _ Hk) in Hdrop. by inversion Hdrop. }
    pose proof (lookup_lt_Some _ _ _ Hk) as Hklt.
    assert (u ∈ vertices g) as Hu.
    { eapply kahn_sub; [done|]. by eapply list_elem_of_lookup_2. }
    rewrite (wf_get_neighbors g u Hwf Hu). cbn [bind].
    destruct (kahn_inv_step d D k u Hinv Hk) as (d' & new & -> & Hinv').
    cbn [bind].
    assert (take k D ++ [u] = take (S k) (D ++ new)) as ->.
    { rewrite take_app_le by lia. symmetry. by apply take_S_r. }
    apply IH; [done|lia].
Qed.

(** [kahn_algorithm] on a well-formed directed graph without duplicate
    vertices returns a topological order, or raises the cycle error on a graph
    that has a cycle. *)
Lemma kahn_algorithm_spec :
  is_directed g = true →
  sorts_or_detects g (TopologicalSort.kahn_algorithm g).
Proof.
  intros Hdir. unfold TopologicalSort.kahn_algorithm. rewrite Hdir. cbn [negb].
  destruct count_in_degrees_spec as (d & -> & Hd). cbn [bind].
  rewrite zero_in_degree_spec.
  2:{ intros v Hv. rewrite Hd, decide_True by done. by eexists. }
  cbn [bind].
  destruct (kahn_loop_spec (S (length (vertices g))) d
              (filter (fun v => d !! v = Some 0%Z) (vertices g)) 0)
    as (d' & D & Hloop & Hinv); [by apply kahn_inv_init|lia|].
  rewrite drop_0, take_0 in Hloop. rewrite Hloop. cbn [bind].
  pose proof (kahn_nodup _ _ _ Hinv) as HndD.
  case_decide as Hlen.
  - right. split; [done|].
    apply (predecessors_cycle (edge g) (remaining D)).
    + intros Hnil. apply Hlen. apply Permutation_length.
      apply NoDup_Permutation; [done..|]. intros x. split; [by eapply kahn_sub|].
      intros Hx. apply dec_stable. intros HxD.
      assert (x ∈ remaining D) as Hin by (by apply list_elem_of_filter).
      rewrite Hnil in Hin. by apply elem_of_nil in Hin.
    + intros v [HvD Hv]%list_elem_of_filter.
      apply (in_count_pos v). intros Hzero. apply HvD.
      apply (kahn_zero _ _ _ Hinv).
      rewrite (kahn_degree _ _ _ Hinv), decide_True, firstn_all by done.
      by rewrite Hzero.
  - left. exists D. split; [done|].
    assert (D ≡ₚ vertices g) as Hperm.
    { apply submseteq_length_Permutation; [|lia].
      apply NoDup_submseteq; [done|]. intros x Hx. by eapply kahn_sub. }
    split_and!; [done..|].
    intros u v Hedge.
    assert (v ∈ D) as [i Hi]%list_elem_of_lookup.
    { rewrite Hperm. by eapply edge_target. }
    destruct (kahn_order _ _ _ Hinv i v Hi u Hedge) as (j & Hji & _ & Hj).
    by exists j, i.
Qed.

End kahn.

(** ** [TopologicalSort.dfs_based] *)

Section dfs_based.

Import TopologicalSort.

Context (g : Graph).
Hypothesis Hwf : wf g.

(** Between calls: the visited vertices are those on the recursion stack
    (grey) and those on the completion stack (black), and every black vertex
    has all its neighbours below it on the completion stack. *)
Record dfs_inv (st : dfs_state) : Prop := DfsInv {
  dfs_split : ∀ y, y ∈ visited st ↔ y ∈ rec_stack st ∨ y ∈ stack st;
  dfs_disjoint : ∀ y, y ∈ rec_stack st → y ∉ stack st;
  dfs_nodup : NoDup (stack st);
  dfs_closed : ∀ i y, stack st !! i = Some y → ∀ z, edge g y z →
                      ∃ j, (j < i)%nat ∧ stack st !! j = Some z;
  dfs_sub : ∀ y, y ∈ visited st → y ∈ vertices g
}.

(** What a call, or a run of the loop, may do from state [st]: finish in a
    state that extends [st], keeps the recursion stack, and has the vertices
    [done_] on the completion stack; or raise the cycle error on a graph that
    has a cycle. *)
Definition extends (st : dfs_state) (done_ : list Vertex)
    (r : result dfs_state) : Prop :=
  (∃ st', r = Ok st' ∧ dfs_inv st' ∧ rec_stack st' = rec_stack st
          ∧ visited st ⊆ visited st'
          ∧ (∀ y, y ∈ stack st → y ∈ stack st')
          ∧ ∀ y, y ∈ done_ → y ∈ stack st')
  ∨ (r = Raise ValueError_cycle ∧ cyclic g).

Definition unvisited (st : dfs_state) : gset Vertex :=
  (list_to_set (vertices g) : gset Vertex) ∖ visited st.

Lemma dfs_visit_spec (fuel : nat) (x : Vertex) (st : dfs_state) :
  dfs_inv st → x ∈ vertices g → x ∉ visited st →
  (∀ r, r ∈ rec_stack st → tc (edge g) r x) →
  (size (unvisited st) ≤ fuel)%nat →
  extends st [x] (dfs_visit fuel g x st).
Proof.
  revert x st. induction fuel as [|fuel IH]; intros x st Hinv Hx Hnew Hgrey Hfuel.
  { pose proof (size_unvisited_lt g x (visited st) Hx Hnew). unfold unvisited in *.
    lia. }
  cbn [dfs_visit]. rewrite (wf_get_neighbors g x Hwf Hx). cbn [bind].
  set (st1 := DfsState ({[x]} ∪ visited st) ({[x]} ∪ rec_stack st) (stack st)).
  assert (x ∉ rec_stack st) as HxR.
  { intros HxR. apply Hnew, (dfs_split _ Hinv). by left. }
  assert (x ∉ stack st) as HxS.
  { intros HxS. apply Hnew, (dfs_split _ Hinv). by right. }
  assert (dfs_inv st1) as Hinv1.
  { split; simpl.
    - intros y. rewrite !elem_of_union, (dfs_split _ Hinv). tauto.
    - intros y [->%elem_of_singleton|Hy]%elem_of_union; [done|].
      by apply (dfs_disjoint _ Hinv).
    - by apply (dfs_nodup _ Hinv).
    - by apply (dfs_closed _ Hinv).
    - intros y [->%elem_of_singleton|Hy]%elem_of_union; [done|].
      by apply (dfs_sub _ Hinv). }
  assert (∀ l st2, (∀ e, e ∈ l → e ∈ neighbors_of g x) →
                   dfs_inv st2 → rec_stack st2 = {[x]} ∪ rec_stack st →
                   visited st1 ⊆ visited st2 →
                   extends st2 (l.*1)
                     (for_each (visit_body (dfs_visit fuel g)) l st2)) as Hloop.
  { induction l as [|[z w] l IHl]; intros st2 Hsub Hinv2 Hrec2 Hvis2.
    { left. exists st2. split_and!; try done. by intros y ?%elem_of_nil. }
    assert (edge g x z) as Hxz by (exists w; apply Hsub; by left).
    assert (∀ st3, dfs_inv st3 → rec_stack st3 = rec_stack st2 →
                   visited st2 ⊆ visited st3 →
                   (∀ y, y ∈ stack st2 → y ∈ stack st3) → z ∈ stack st3 →
                   extends st2 (((z, w) :: l).*1)
                     (for_each (visit_body (dfs_visit fuel g)) l st3)) as Hrest.
    { intros st3 Hinv3 Hrec3 Hvis3 Hstack3 Hz3.
      destruct (IHl st3) as [(st4 & -> & Hinv4 & Hrec4 & Hvis4 & Hstack4 & Hdone4)|[-> Hcyc]];
        [by intros e He; apply Hsub; right|done|congruence|set_solver| |by right].
      left. exists st4. split_and!; [done|done|congruence|set_solver|by auto|].
      intros y [->|Hy]%elem_of_cons; [by auto|by auto]. }
    cbn [for_each]. unfold visit_body at 1. cbn [fst].
    case_decide as Hz.
    - destruct (IH z st2) as [(st3 & -> & Hinv3 & Hrec3 & Hvis3 & Hstack3 & Hdone3)|[-> Hcyc]];
        [done|by eapply edge_target|done| | | |by right].
      + intros r. rewrite Hrec2.
        intros [->%elem_of_singleton|Hr]%elem_of_union; [by apply tc_once|].
        eapply tc_r; [by apply Hgrey|done].
      + pose proof (size_unvisited_lt g x (visited st) Hx Hnew) as Hlt.
        assert (unvisited st2
                ⊆ (list_to_set (vertices g) : gset Vertex) ∖ ({[x]} ∪ visited st))
          as Hle%subseteq_size.
        { unfold unvisited. simpl in Hvis2. set_solver. }
        unfold unvisited in *. lia.
      + cbn [bind]. apply Hrest; try done. apply Hdone3. by left.
    - assert (z ∈ visited st2) as Hzv by (first [done|by apply dec_stable]).
      case_decide as Hzr.
      + right. split; [done|]. rewrite Hrec2 in Hzr.
        apply elem_of_union in Hzr as [->%elem_of_singleton|Hzr].
        * exists x. by apply tc_once.
        * exists z. eapply tc_r; [by apply Hgrey|done].
      + cbn [bind]. apply Hrest; try done.
        apply (dfs_split _ Hinv2) in Hzv as [?|?]; done. }
  destruct (Hloop (neighbors_of g x) st1)
    as [(st3 & -> & Hinv3 & Hrec3 & Hvis3 & Hstack3 & Hdone3)|[-> Hcyc]];
    [done|done|done|done| |by right].
  cbn [bind]. unfold DFS.set_remove. simpl in Hrec3.
  rewrite decide_True by (rewrite Hrec3; set_solver). cbn [bind].
  assert (rec_stack st3 ∖ {[x]} = rec_stack st) as Hrec.
  { rewrite Hrec3. set_solver. }
  assert (x ∉ stack st3) as HxS3.
  { apply (dfs_disjoint _ Hinv3). rewrite Hrec3. set_solver. }
  left. eexists. split; [done|]. simpl. split_and!.
  - split; simpl.
    + intros y. rewrite (dfs_split _ Hinv3), Hrec3, elem_of_app,
        list_elem_of_singleton, elem_of_difference, elem_of_union,
        elem_of_singleton.
      destruct (decide (y = x)); naive_solver.
    + intros y [Hy Hyx]%elem_of_difference.
      rewrite elem_of_app, list_elem_of_singleton, elem_of_singleton in *.
      intros [HyS | ->]; [|done]. by apply (dfs_disjoint _ Hinv3 y).
    + apply NoDup_app. split_and!; [by apply (dfs_nodup _ Hinv3)| |apply NoDup_singleton].
      intros y Hy ->%list_elem_of_singleton. done.
    + intros i y Hi z Hedge.
      apply lookup_app_Some in Hi as [Hi|[Hil Hi]].
      * destruct (dfs_closed _ Hinv3 i y Hi z Hedge) as (j & Hji & Hj).
        exists j. split; [done|]. by apply lookup_app_l_Some.
      * apply list_lookup_singleton_Some in Hi as [_ <-].
        assert (z ∈ stack st3) as [j Hj]%list_elem_of_lookup.
        { apply Hdone3. by apply edge_elem. }
        exists j. split; [|by apply lookup_app_l_Some].
        apply lookup_lt_Some in Hj. lia.
    + intros y Hy. by apply (dfs_sub _ Hinv3).
  - done.
  - simpl in Hvis3. set_solver.
  - intros y Hy. apply elem_of_app. left. by apply Hstack3.
  - intros y ->%list_elem_of_singleton. apply elem_of_app. right. by left.
Qed.

Lemma dfs_roots_spec (l : list Vertex) (st : dfs_state) :
  (∀ x, x ∈ l → x ∈ vertices g) → dfs_inv st → rec_stack st = ∅ →
  extends st l (for_each (visit_root g) l st).
Proof.
  revert st. induction l as [|x l IHl]; intros st Hsub Hinv Hrec.
  { left. exists st. split_and!; try done. by intros y ?%elem_of_nil. }
  assert (∀ st3, dfs_inv st3 → rec_stack st3 = rec_stack st →
                 visited st ⊆ visited st3 →
                 (∀ y, y ∈ stack st → y ∈ stack st3) → x ∈ stack st3 →
                 extends st (x :: l) (for_each (visit_root g) l st3)) as Hrest.
  { intros st3 Hinv3 Hrec3 Hvis3 Hstack3 Hx3.
    destruct (IHl st3) as [(st4 & -> & Hinv4 & Hrec4 & Hvis4 & Hstack4 & Hdone4)|[-> Hcyc]];
      [by intros y Hy; apply Hsub; right|done|congruence| |by right].
    left. exists st4. split_and!; [done|done|congruence|set_solver|by auto|].
    intros y [->|Hy]%elem_of_cons; [by auto|by auto]. }
  cbn [for_each]. unfold visit_root at 1. case_decide as Hx.
  - destruct (dfs_visit_spec (length (vertices g)) x st)
      as [(st3 & -> & Hinv3 & Hrec3 & Hvis3 & Hstack3 & Hdone3)|[-> Hcyc]];
      [done|by apply Hsub; left|done| | | |by right].
    + intros r. rewrite Hrec. by intros ?%elem_of_empty.
    + etrans; [|apply size_list_to_set_le]. apply subseteq_size.
      unfold unvisited. set_solver.
    + cbn [bind]. apply Hrest; try done. apply Hdone3. by left.
  - cbn [bind]. apply Hrest; try done.
    assert (x ∈ visited st) as Hxv by (first [done|by apply dec_stable]).
    apply (dfs_split _ Hinv) in Hxv as [Hxr|?]; [|done].
    rewrite Hrec in Hxr. by apply elem_of_empty in Hxr.
Qed.

(** [dfs_based] on a well-formed directed graph without duplicate vertices
    returns a topological order, or raises the cycle error on a graph that
    has a cycle. *)
Lemma dfs_based_spec :
  NoDup (vertices g) → is_directed g = true →
  sorts_or_detects g (dfs_based g).
Proof.
  intros Hnodup Hdir. unfold dfs_based. rewrite Hdir. cbn [negb].
  destruct (dfs_roots_spec (vertices g) (DfsState ∅ ∅ []))
    as [(st & -> & Hinv & Hrec & _ & _ & Hall)|[-> Hcyc]]; [done| |done| |].
  - split; simpl.
    + intros y. rewrite elem_of_nil. set_solver.
    + by intros y ?%elem_of_empty.
    + constructor.
    + by intros [|?] y.
    + by intros y ?%elem_of_empty.
  - cbn [bind]. left. eexists. split; [done|].
    pose proof (dfs_nodup _ Hinv) as Hnd.
    assert (stack st ≡ₚ vertices g) as Hperm.
    { apply NoDup_Permutation; [done..|]. intros y. split; [|by apply Hall].
      intros Hy. apply (dfs_sub _ Hinv), (dfs_split _ Hinv). by right. }
    split_and!.
    + by rewrite reverse_Permutation.
    + by rewrite reverse_Permutation.
    + intros u v Hedge.
      assert (u ∈ stack st) as [i Hi]%list_elem_of_lookup.
      { apply Hall. by eapply edge_source. }
      destruct (dfs_closed _ Hinv i u Hi v Hedge) as (j & Hji & Hj).
      pose proof (lookup_lt_Some _ _ _ Hi) as Hil.
      exists (length (stack st) - S i)%nat, (length (stack st) - S j)%nat.
      split_and!.
      * rewrite reverse_lookup by lia. rewrite <- Hi. f_equal. lia.
      * rewrite reverse_lookup by lia. rewrite <- Hj. f_equal. lia.
      * lia.
  - right. by split.
Qed.

End dfs_based.




